(** * Priority task queue with dynamic concurrency, and the fetch timeout race

    A shallow embedding of [DynamicPriorityQueue] (constructor, [add],
    [setLimit], [process]), of [fetchWithTimeout] / [fetchWithTimeoutClean]
    and of the wrappers [once], [retryOnce], [ensureAsync] and [promisify],
    with the properties of the scheduler that the specification lists and
    further properties read off the code.

    JavaScript runs every callback to completion on one thread.  A call of
    the async method [process] executes synchronously up to its first
    [await]; there the invocation is suspended and control returns to its
    caller.  The suspended invocation is resumed later, from the job queue,
    once the awaited task has settled.  The atomic steps of the model are
    therefore: a call of [add], a call of [setLimit], and the resumption of
    one suspended invocation of [process].  Task bodies are opaque: a task is
    described by what calling it does (it throws, or it returns something
    that is awaited and eventually has an outcome) and is assumed not to call
    back into the queue while it is being invoked. *)

From Stdlib Require Import String ZArith List Bool Lia Permutation Sorted.
Import ListNotations.
Local Open Scope Z_scope.

(** JavaScript values that tasks produce or throw. *)
Definition Val := string.
Bind Scope string_scope with Val.

(** How a promise is settled. *)
Inductive Outcome :=
| Fulfilled (v : Val)
| Rejected (e : Val).

Module DynamicPriorityQueue.

(** What [task()] does when [process] calls it inside [try]: either the call
    throws [e] before returning, or it returns a value or promise which
    [await] waits for and which eventually has outcome [o]. *)
Inductive Task :=
| Throws (e : Val)
| Async (o : Outcome).

(** The object [{ task, priority, resolve, reject }] pushed by [add].  The
    pair [resolve]/[reject] is identified by [id], the number of the [add]
    call that created the promise. *)
Record TaskRecord := mkRecord {
  id : nat;
  task : Task;
  priority : Z
}.

(** An invocation of [process] suspended at [await task()]: it holds the
    [resolve]/[reject] pair of [handle] and waits for a promise whose outcome
    will be [awaited]. *)
Record Worker := mkWorker {
  handle : nat;
  awaited : Outcome
}.

(** The fields of the object ([concurrency], [running], [queue]) and what
    the JavaScript engine holds around it: the suspended invocations of
    [process], the calls of [resolve]/[reject] made so far (in order), the
    records shifted from the queue so far (in order), and the number of
    promises created by [add]. *)
Record State := mkState {
  concurrency : Z;
  running : Z;
  queue : list TaskRecord;
  awaiting : list Worker;
  settled : list (nat * Outcome);
  started : list nat;
  next_handle : nat
}.

(** [constructor(concurrency)] *)
Definition constructor (c : Z) : State :=
  {| concurrency := c; running := 0; queue := [];
     awaiting := []; settled := []; started := []; next_handle := 0 |}.

(** [Array.prototype.sort] with comparator [(a, b) => b.priority - a.priority]:
    a stable sort (ECMAScript 2019) into descending priority.  [insert r l]
    puts [r] in front of the first element whose priority is not greater. *)
Fixpoint insert (r : TaskRecord) (l : list TaskRecord) : list TaskRecord :=
  match l with
  | [] => [r]
  | x :: l' => if priority r <? priority x then x :: insert r l' else r :: x :: l'
  end.

Fixpoint sort (l : list TaskRecord) : list TaskRecord :=
  match l with
  | [] => []
  | x :: l' => insert x (sort l')
  end.

(** [Array.prototype.shift]: [undefined] on an empty array. *)
Definition shift (q : list TaskRecord) : option TaskRecord * list TaskRecord :=
  match q with
  | [] => (None, [])
  | r :: q' => (Some r, q')
  end.

(** Field updates of the object and of its surroundings. *)
Definition set_concurrency (n : Z) (s : State) : State :=
  mkState n (running s) (queue s) (awaiting s) (settled s) (started s)
    (next_handle s).

Definition set_running (n : Z) (s : State) : State :=
  mkState (concurrency s) n (queue s) (awaiting s) (settled s) (started s)
    (next_handle s).

Definition set_queue (q : list TaskRecord) (s : State) : State :=
  mkState (concurrency s) (running s) q (awaiting s) (settled s) (started s)
    (next_handle s).

Definition set_awaiting (ws : list Worker) (s : State) : State :=
  mkState (concurrency s) (running s) (queue s) ws (settled s) (started s)
    (next_handle s).

(** A call of [resolve] or [reject] of handle [h]. *)
Definition settle (h : nat) (o : Outcome) (s : State) : State :=
  mkState (concurrency s) (running s) (queue s) (awaiting s)
    (settled s ++ [(h, o)]) (started s) (next_handle s).

(** Record [r] has left the queue and its task is being called. *)
Definition log_start (r : TaskRecord) (s : State) : State :=
  mkState (concurrency s) (running s) (queue s) (awaiting s) (settled s)
    (started s ++ [id r]) (next_handle s).

(** One invocation of [process], run up to the point where it is suspended
    at [await] or its loop ends.  When [task()] throws, nothing is awaited:
    [catch] rejects, [finally] decrements [running] and calls
    [this.process()], and the [while] loop tests its guard again, which is
    what a fresh invocation does.  [fuel] bounds the nesting. *)
Fixpoint process_fuel (fuel : nat) (s : State) : option State :=
  match fuel with
  | O => None
  | S fuel' =>
    if (running s <? concurrency s) && (0 <? Z.of_nat (length (queue s))) then
      let s1 := set_running (running s + 1) s in
      match shift (queue s1) with
      | (None, _) =>
        (* destructuring [undefined] throws: the invocation ends there *)
        Some s1
      | (Some r, q) =>
        let s2 := log_start r (set_queue q s1) in
        match task r with
        | Throws e =>
          let s3 := settle (id r) (Rejected e) s2 in
          let s4 := set_running (running s3 - 1) s3 in
          match process_fuel fuel' s4 with
          | None => None
          | Some s5 => process_fuel fuel' s5
          end
        | Async o =>
          Some (set_awaiting (awaiting s2 ++ [mkWorker (id r) o]) s2)
        end
      end
    else Some s
  end.

(** [process()]: the nesting is at most one level per queued record. *)
Definition process (s : State) : State :=
  match process_fuel (S (length (queue s))) s with
  | Some s' => s'
  | None => s
  end.

(** [add(task, priority)]: the executor of the new promise pushes the
    record, sorts the queue and calls [process]; the promise is returned. *)
Definition enqueue (t : Task) (p : Z) (s : State) : State :=
  let r := mkRecord (next_handle s) t p in
  mkState (concurrency s) (running s) (sort (queue s ++ [r]))
    (awaiting s) (settled s) (started s) (S (next_handle s)).

Definition add (t : Task) (p : Z) (s : State) : nat * State :=
  (next_handle s, process (enqueue t p s)).

(** [setLimit(newConcurrency)] *)
Definition setLimit (n : Z) (s : State) : State :=
  process (set_concurrency n s).

(** The suspended invocation that holds handle [h], and the others. *)
Fixpoint take (h : nat) (ws : list Worker) : option (Worker * list Worker) :=
  match ws with
  | [] => None
  | w :: ws' =>
    if Nat.eqb (handle w) h then Some (w, ws')
    else match take h ws' with
         | Some (w', rest) => Some (w', w :: rest)
         | None => None
         end
  end.

(** The invocation [w] proceeds past its [await]: [resolve(result)] or,
    through [catch], [reject(error)]; then [running--] in [finally]. *)
Definition continue (w : Worker) (rest : list Worker) (s : State) : State :=
  let s1 := settle (handle w) (awaited w) (set_awaiting rest s) in
  set_running (running s1 - 1) s1.

(** The rest of the loop body of [process], run when the task awaited for
    handle [h] has settled: [resolve(result)] or, through [catch],
    [reject(error)]; then [finally] decrements [running] and calls
    [this.process()]; then the [while] loop tests its guard again.  Nothing
    happens when no invocation is awaiting for [h]. *)
Definition resume (h : nat) (s : State) : State :=
  match take h (awaiting s) with
  | None => s
  | Some (w, rest) => process (process (continue w rest s))
  end.

(** Atomic steps of a run. *)
Inductive Event :=
| Add (t : Task) (p : Z)
| SetLimit (n : Z)
| Finish (h : nat).

Definition step (e : Event) (s : State) : State :=
  match e with
  | Add t p => snd (add t p s)
  | SetLimit n => setLimit n s
  | Finish h => resume h s
  end.

Definition run (evs : list Event) (s : State) : State :=
  fold_left (fun s e => step e s) evs s.

(** The states a queue object can be in. *)
Definition reachable (s : State) : Prop :=
  exists c evs, s = run evs (constructor c).

(** The calls of [resolve]/[reject] made for handle [h]. *)
Definition settlements (h : nat) (s : State) : list (nat * Outcome) :=
  filter (fun x => Nat.eqb (fst x) h) (settled s).

(** The outcome a task has for its caller. *)
Definition result (t : Task) : Outcome :=
  match t with
  | Throws e => Rejected e
  | Async o => o
  end.

(** ** Notions used to state the properties *)

(** The invocations left suspended by the records [pre] once their tasks
    have been called: one for each task that returned. *)
Fixpoint asyncs (pre : list TaskRecord) : list Worker :=
  match pre with
  | [] => []
  | r :: pre' =>
    match task r with
    | Async o => mkWorker (id r) o :: asyncs pre'
    | Throws _ => asyncs pre'
    end
  end.

(** The rejections made while the tasks of [pre] were called: one for each
    task that threw. *)
Fixpoint throws (pre : list TaskRecord) : list (nat * Outcome) :=
  match pre with
  | [] => []
  | r :: pre' =>
    match task r with
    | Throws e => (id r, Rejected e) :: throws pre'
    | Async _ => throws pre'
    end
  end.

(** The guard of the [while] loop of [process]. *)
Definition guard (s : State) : Prop :=
  running s < concurrency s /\ queue s <> [].

(** [pops pre s s']: between [s] and [s'] the records [pre] have left the
    front of the queue, in order, and their tasks have been called; a record
    leaves only under the guard, the front record does leave under the
    guard, and the last invocation of [process] ended suspended or with the
    guard false. *)
Record pops (pre : list TaskRecord) (s s' : State) : Prop := {
  pops_queue : queue s = pre ++ queue s';
  pops_concurrency : concurrency s' = concurrency s;
  pops_running : running s' = running s + Z.of_nat (length (asyncs pre));
  pops_awaiting : awaiting s' = awaiting s ++ asyncs pre;
  pops_settled : settled s' = settled s ++ throws pre;
  pops_started : started s' = started s ++ map id pre;
  pops_next : next_handle s' = next_handle s;
  pops_guard : pre <> [] -> running s < concurrency s;
  pops_head : pre = [] -> ~ guard s;
  pops_bound : asyncs pre <> [] -> running s' <= concurrency s;
  pops_end : asyncs pre <> [] \/ ~ guard s'
}.

(** [before a b]: [a] has greater priority than [b], or the same priority
    and was submitted earlier. *)
Definition before (a b : TaskRecord) : Prop :=
  priority b < priority a \/ (priority a = priority b /\ (id a < id b)%nat).

(** What the comparator of [sort] alone ensures. *)
Definition higher_eq (a b : TaskRecord) : Prop := priority b <= priority a.

(** Every handle created so far, by where its record is. *)
Definition handles (s : State) : list nat :=
  map fst (settled s) ++ map handle (awaiting s) ++ map id (queue s).

(** What holds of the state between two steps. *)
Record Inv (s : State) : Prop := {
  inv_running : running s = Z.of_nat (length (awaiting s));
  inv_sorted : StronglySorted before (queue s);
  inv_handles : forall i, In i (handles s) <-> (i < next_handle s)%nat;
  inv_nodup : NoDup (handles s);
  inv_started :
    Permutation (started s) (map fst (settled s) ++ map handle (awaiting s))
}.


(** [fate r s]: the record is still queued, or its task is awaited, or its
    handle has been settled with the result of its task. *)
Definition fate (r : TaskRecord) (s : State) : Prop :=
  In r (queue s) \/
  (exists o, task r = Async o /\ In (mkWorker (id r) o) (awaiting s)) \/
  In (id r, result (task r)) (settled s).

(** No call of [setLimit] in the run passes a value below the running
    counter of that moment. *)
Fixpoint never_lowered (evs : list Event) (s : State) : Prop :=
  match evs with
  | [] => True
  | e :: evs' =>
    match e with SetLimit n => running s <= n | _ => True end /\
    never_lowered evs' (step e s)
  end.

(** Events of runs in which the limit stays at most 0, and of runs in
    which it is not changed. *)
Definition nonpositive_limit (e : Event) : Prop :=
  match e with SetLimit n => n <= 0 | _ => True end.

Definition not_setLimit (e : Event) : Prop :=
  match e with SetLimit _ => False | _ => True end.


(** [x] occurs in [l], and [y] occurs later. *)
Definition precedes {A} (x y : A) (l : list A) : Prop :=
  exists l1 l2, l = l1 ++ x :: l2 /\ In y l2.

(** The order of the starts made so far, followed by the order in which the
    queued records will be shifted. *)
Definition start_order (s : State) : list nat :=
  started s ++ map id (queue s).

(** The largest limit in effect during a run that begins with limit [m]. *)
Definition highest_limit (evs : list Event) (m : Z) : Z :=
  fold_left (fun m e => match e with SetLimit n => Z.max m n | _ => m end)
    evs m.

(** The task of [r] throws when it is called. *)
Definition throwing (r : TaskRecord) : Prop :=
  match task r with Throws _ => True | Async _ => False end.

End DynamicPriorityQueue.

Module FetchWithTimeout.

(** The callbacks the event loop delivers to a call: the promise returned by
    [fetch(url)] settles, or the timer set by [setTimeout(_, ms)] expires.
    [fetch] is taken to return a promise (it does not throw), as the Fetch
    standard has it. *)
Inductive Event :=
| FetchSettles (o : Outcome)
| TimerFires.

(** A promise is pending ([None]) or settled.  [resolve] and [reject] do
    nothing on a settled promise. *)
Definition Promise := option Outcome.

Definition settle (o : Outcome) (p : Promise) : Promise :=
  match p with
  | None => Some o
  | Some _ => p
  end.

Definition timed_out : Outcome := Rejected "Request Timed Out".

(** [fetchWithTimeout]: the returned promise, and whether the timer
    [timeoutId] is still set. *)
Record Manual := mkManual {
  returned : Promise;
  timeoutId : bool
}.

Definition manual_on (st : Manual) (ev : Event) : Manual :=
  match ev with
  | TimerFires =>
    (* the callback of [setTimeout]; a cleared timer does not fire *)
    if timeoutId st then mkManual (settle timed_out (returned st)) false
    else st
  | FetchSettles (Fulfilled response) =>
    (* [.then]: [clearTimeout(timeoutId); resolve(response)] *)
    mkManual (settle (Fulfilled response) (returned st)) false
  | FetchSettles (Rejected error) =>
    (* [.catch]: [clearTimeout(timeoutId); reject(error)] *)
    mkManual (settle (Rejected error) (returned st)) false
  end.

(** [fetchWithTimeoutClean]: the promise [timeoutPromise] and the promise
    returned by [Promise.race], which settles as the first of its inputs
    to settle does. *)
Record Raced := mkRaced {
  timeoutPromise : Promise;
  race : Promise
}.

Definition raced_on (st : Raced) (ev : Event) : Raced :=
  match ev with
  | TimerFires =>
    match timeoutPromise st with
    | None => mkRaced (Some timed_out) (settle timed_out (race st))
    | Some _ => st
    end
  | FetchSettles o => mkRaced (timeoutPromise st) (settle o (race st))
  end.

(** What the claim says the returned promise is: the outcome of the fetch
    when the fetch settles first, the time-out rejection when the timer
    fires first, pending while neither has happened. *)
Definition first_to_settle (evs : list Event) : Promise :=
  match evs with
  | [] => None
  | FetchSettles o :: _ => Some o
  | TimerFires :: _ => Some timed_out
  end.

Section EventLoop.

(** The callbacks delivered, in order, after [fetch(url)] has been called
    and a timer of [ms] milliseconds has been set. *)
Variable eventLoop : string -> Z -> list Event.

Definition fetchWithTimeout (url : string) (ms : Z) : Promise :=
  returned (fold_left manual_on (eventLoop url ms) (mkManual None true)).

Definition fetchWithTimeoutClean (url : string) (ms : Z) : Promise :=
  race (fold_left raced_on (eventLoop url ms) (mkRaced None None)).

End EventLoop.

End FetchWithTimeout.

(** * The wrappers [once], [retryOnce], [ensureAsync] and [promisify] *)

Module Wrappers.

(** JavaScript values, as far as the wrappers tell them apart: what
    [if (error)] tests, and whether [await] has to wait for a promise.
    [Promise true v] is a promise that is fulfilled with [v],
    [Promise false e] one that is rejected with [e]; a promise that never
    settles is not a value of the model, and a promise is taken not to be
    fulfilled with another promise.  Numbers are integers. *)
Inductive JsValue :=
| Undefined
| Null
| Bool (b : bool)
| Num (n : Z)
| Str (s : string)
| Obj (name : string)
| Promise (fulfilled : bool) (v : JsValue).

(** ToBoolean. *)
Definition truthy (v : JsValue) : bool :=
  match v with
  | Undefined | Null => false
  | Bool b => b
  | Num n => negb (n =? 0)
  | Str s => negb (String.eqb s "")
  | Obj _ | Promise _ _ => true
  end.

(** How a call ends. *)
Inductive Completion :=
| Return (v : JsValue)
| Throw (e : JsValue).

(** What [await] yields, and what it throws. *)
Inductive Awaited :=
| Value (v : JsValue)
| Error (e : JsValue).

Definition await (v : JsValue) : Awaited :=
  match v with
  | Promise true v' => Value v'
  | Promise false e => Error e
  | _ => Value v
  end.

(** [await fn(...args)] inside [try]: a throw of the call and a rejection of
    the promise it returns both reach [catch]. *)
Definition await_call (c : Completion) : Awaited :=
  match c with
  | Return v => await v
  | Throw e => Error e
  end.

(** The promise an [async] function returns for what its body yields. *)
Definition async_result (a : Awaited) : Completion :=
  match a with
  | Value v => Return (Promise true v)
  | Error e => Return (Promise false e)
  end.

(** A promise under construction: pending ([None]) or settled; [resolve]
    with a promise adopts its state, and nothing changes a settled one. *)
Definition settle (a : Awaited) (p : option Awaited) : option Awaited :=
  match p with
  | None => Some a
  | Some _ => p
  end.

Section World.

(** Whatever the wrapped function reads and changes. *)
Context {Env : Type}.

(** A function called with [...args]: how the call ends and what it leaves
    behind; for a function whose promise is awaited, [Env] is the world at
    the moment the promise has settled. *)
Definition Fn := list JsValue -> Env -> Completion * Env.

(** The variables [called] and [result] of the closure [once(fn)] returns. *)
Record Closure := mkClosure {
  called : bool;
  result : JsValue
}.

(** [let called = false; let result;] *)
Definition once_closure : Closure := mkClosure false Undefined.

(** A call of the function returned by [once(fn)]; [fn] is taken not to
    call that function itself. *)
Definition once (fn : Fn) (arg : list JsValue) (c : Closure) (env : Env)
  : Completion * Closure * Env :=
  if negb (called c) then
    let c1 := mkClosure true (result c) in
    match fn arg env with
    | (Return v, env') => (Return v, mkClosure true v, env')
    | (Throw e, env') => (Throw e, c1, env')
    end
  else (Return (result c), c, env).

(** Successive calls of the function returned by [once(fn)]. *)
Fixpoint once_calls (fn : Fn) (args : list (list JsValue)) (c : Closure)
    (env : Env) : list Completion * Closure * Env :=
  match args with
  | [] => ([], c, env)
  | arg :: args' =>
    let '(r, c1, env1) := once fn arg c env in
    let '(rs, c2, env2) := once_calls fn args' c1 env1 in
    (r :: rs, c2, env2)
  end.

(** A call of the function returned by [retryOnce(fn)]. *)
Definition retryOnce (fn : Fn) : Fn := fun args env =>
  let (c1, env1) := fn args env in
  match await_call c1 with
  | Value v => (async_result (Value v), env1)
  | Error error =>
    let (c2, env2) := fn args env1 in
    match await_call c2 with
    | Value v => (async_result (Value v), env2)
    | Error retryError => (async_result (Error retryError), env2)
    end
  end.

(** A call of the function returned by [ensureAsync(fn)]. *)
Definition ensureAsync (fn : Fn) : Fn := fun args env =>
  let (c, env1) := fn args env in
  (async_result (await_call c), env1).

(** What a caller that awaits [fn(...args)] observes. *)
Definition observe (fn : Fn) (args : list JsValue) (env : Env)
  : Awaited * Env :=
  let (c, env1) := fn args env in (await_call c, env1).

(** Up to [S n] successive attempts: the value of the first one that
    succeeds, otherwise the error of the last one. *)
Fixpoint attempts (n : nat) (fn : Fn) (args : list JsValue) (env : Env)
  : Awaited * Env :=
  match n with
  | O => observe fn args env
  | S n' =>
    match observe fn args env with
    | (Value v, env1) => (Value v, env1)
    | (Error _, env1) => attempts n' fn args env1
    end
  end.

End World.

(** What [fn(...args, callback)] does with the callback it is given: the
    calls [callback(error, data)] it makes before it returns, the value it
    throws instead of returning (if any), and the calls made later. *)
Record CallbackUse := mkCallbackUse {
  during : list (JsValue * JsValue);
  thrown : option JsValue;
  later : list (JsValue * JsValue)
}.

(** [(error, data) => { if (error) reject(error) else resolve(data) }] *)
Definition callback (p : option Awaited) (call : JsValue * JsValue)
  : option Awaited :=
  let (error, data) := call in
  if truthy error then settle (Error error) p else settle (await data) p.

(** The promise returned by a call of [promisify(fn)]: the executor calls
    [fn]; a throw of the executor rejects the promise. *)
Definition promisify (fn : list JsValue -> CallbackUse) (args : list JsValue)
  : option Awaited :=
  let u := fn args in
  let p1 := fold_left callback (during u) None in
  let p2 := match thrown u with
            | Some e => settle (Error e) p1
            | None => p1
            end in
  fold_left callback (later u) p2.

(** The settlement that the call [callback(error, data)] asks for. *)
Definition asked (call : JsValue * JsValue) : Awaited :=
  if truthy (fst call) then Error (fst call) else await (snd call).

End Wrappers.

(** * Properties of the queue *)

Module QueueProperties.
Import DynamicPriorityQueue.

(** ** What one invocation of [process] does *)

Lemma asyncs_app pre1 pre2 : asyncs (pre1 ++ pre2) = asyncs pre1 ++ asyncs pre2.
Proof.
  induction pre1 as [|r pre1 IH]; simpl; [reflexivity|].
  destruct (task r); simpl; now rewrite IH.
Qed.

Lemma throws_app pre1 pre2 : throws (pre1 ++ pre2) = throws pre1 ++ throws pre2.
Proof.
  induction pre1 as [|r pre1 IH]; simpl; [reflexivity|].
  destruct (task r); simpl; now rewrite IH.
Qed.

Lemma pops_none s : ~ guard s -> pops [] s s.
Proof.
  intros H. constructor; simpl; rewrite ?app_nil_r; auto; try lia;
    try congruence.
Qed.

Lemma pops_trans pre1 pre2 s s1 s2 :
  pops pre1 s s1 -> pops pre2 s1 s2 -> pops (pre1 ++ pre2) s s2.
Proof.
  intros [Q1 C1 R1 A1 S1 T1 N1 G1 H1 B1 E1] [Q2 C2 R2 A2 S2 T2 N2 G2 H2 B2 E2].
  constructor.
  - now rewrite Q1, Q2, app_assoc.
  - congruence.
  - rewrite R2, R1, asyncs_app, length_app. lia.
  - now rewrite A2, A1, asyncs_app, app_assoc.
  - now rewrite S2, S1, throws_app, app_assoc.
  - now rewrite T2, T1, map_app, app_assoc.
  - congruence.
  - intros Hne. destruct pre1 as [|r pre1].
    + simpl in *. rewrite Z.add_0_r in R1. rewrite <- R1, <- C1. now apply G2.
    + now apply G1.
  - intros Hnil. apply app_eq_nil in Hnil as [-> _]. now apply H1.
  - rewrite asyncs_app. intros Hne.
    destruct (asyncs pre2) as [|w ws] eqn:Ea.
    + rewrite app_nil_r in Hne. simpl in R2. specialize (B1 Hne). lia.
    + rewrite <- C1. apply B2. discriminate.
  - destruct E2 as [E2|E2]; [left|now right].
    rewrite asyncs_app. intros Hnil. apply app_eq_nil in Hnil as [_ Hnil].
    now apply E2.
Qed.

(** With fuel, an invocation of [process] pops a front part of the queue. *)
Lemma process_fuel_pops n : forall s s',
  process_fuel n s = Some s' -> exists pre, pops pre s s'.
Proof.
  induction n as [|n IH]; intros s s' Hp; [discriminate|].
  simpl in Hp.
  destruct ((running s <? concurrency s) && (0 <? Z.of_nat (length (queue s))))
    eqn:Eg.
  - apply andb_true_iff in Eg as [Er Eq].
    apply Z.ltb_lt in Er. apply Z.ltb_lt in Eq.
    destruct (queue s) as [|r q] eqn:Equeue; [simpl in Eq; lia|].
    simpl in Hp. destruct (task r) as [e|o] eqn:Et.
    + destruct (process_fuel n _) as [s5|] eqn:E5 in Hp; [|discriminate].
      apply IH in E5 as [pre1 P1]. apply IH in Hp as [pre2 P2].
      pose proof (pops_trans _ _ _ _ _ P1 P2) as P.
      destruct P as [Q C R A S T N G H B E]. simpl in *.
      exists (r :: pre1 ++ pre2). constructor; simpl; rewrite ?Et; simpl;
        rewrite <- ?app_assoc in *; simpl in *; auto; try congruence; try lia.
    + injection Hp as <-. exists [r].
      constructor; simpl; rewrite ?Et; simpl; rewrite ?app_nil_r; auto;
        try lia; try congruence.
      left. discriminate.
  - injection Hp as <-. exists []. apply pops_none.
    intros [Hr Hq]. apply andb_false_iff in Eg as [Eg|Eg].
    + apply Z.ltb_ge in Eg. lia.
    + apply Z.ltb_ge in Eg. destruct (queue s); [congruence|simpl in Eg; lia].
Qed.

(** [process] returns: fuel above the queue length is enough. *)
Lemma process_fuel_enough n : forall s,
  (length (queue s) < n)%nat -> exists s', process_fuel n s = Some s'.
Proof.
  induction n as [|n IH]; intros s Hn; [lia|].
  simpl.
  destruct ((running s <? concurrency s) && (0 <? Z.of_nat (length (queue s))));
    [|eauto].
  destruct (queue s) as [|r q] eqn:Equeue; simpl; [eauto|].
  destruct (task r) as [e|o]; [|eauto].
  simpl in Hn.
  match goal with |- context [process_fuel n ?s4] =>
    destruct (IH s4) as [s5 E5]; [simpl; lia|] end.
  rewrite E5. apply IH.
  apply process_fuel_pops in E5 as [pre P].
  apply pops_queue in P. simpl in P.
  assert (length q = length (pre ++ queue s5)) as Hl by now rewrite P.
  rewrite length_app in Hl. lia.
Qed.

Lemma process_total s : process_fuel (S (length (queue s))) s = Some (process s).
Proof.
  unfold process.
  destruct (process_fuel_enough (S (length (queue s))) s) as [s' E]; [lia|].
  now rewrite E.
Qed.

Lemma process_pops s : exists pre, pops pre s (process s).
Proof. exact (process_fuel_pops _ _ _ (process_total s)). Qed.

(** The result does not depend on the fuel. *)
Lemma process_fuel_mono n : forall m s s',
  (n <= m)%nat -> process_fuel n s = Some s' -> process_fuel m s = Some s'.
Proof.
  induction n as [|n IH]; intros m s s' Hm Hp; [discriminate|].
  destruct m as [|m]; [lia|]. simpl in *.
  destruct ((running s <? concurrency s) && (0 <? Z.of_nat (length (queue s))));
    [|assumption].
  destruct (queue s) as [|r q]; simpl in *; [assumption|].
  destruct (task r) as [e|o]; [|assumption].
  destruct (process_fuel n _) as [s5|] eqn:E5 in Hp; [|discriminate].
  rewrite (IH m _ _ ltac:(lia) E5). apply IH; [lia|assumption].
Qed.

Lemma process_fuel_process n s s' : process_fuel n s = Some s' -> process s = s'.
Proof.
  intros Hp. pose proof (process_total s) as Ht.
  destruct (Nat.le_ge_cases n (S (length (queue s)))) as [H|H].
  - apply (process_fuel_mono _ _ _ _ H) in Hp. congruence.
  - apply (process_fuel_mono _ _ _ _ H) in Ht. congruence.
Qed.

(** [process] satisfies the equation of the loop in the source. *)
Lemma process_eq s :
  process s =
  if (running s <? concurrency s) && (0 <? Z.of_nat (length (queue s))) then
    let s1 := set_running (running s + 1) s in
    match shift (queue s1) with
    | (None, _) => s1
    | (Some r, q) =>
      let s2 := log_start r (set_queue q s1) in
      match task r with
      | Throws e =>
        let s3 := settle (id r) (Rejected e) s2 in
        process (process (set_running (running s3 - 1) s3))
      | Async o => set_awaiting (awaiting s2 ++ [mkWorker (id r) o]) s2
      end
    end
  else s.
Proof.
  pose proof (process_total s) as Ht.
  cbn [process_fuel] in Ht. unfold shift in *.
  destruct ((running s <? concurrency s) && (0 <? Z.of_nat (length (queue s))));
    [|congruence].
  cbv zeta in *. cbn [queue set_running] in *.
  destruct (queue s) as [|r q] eqn:Eq; [congruence|].
  destruct (task r) as [e|o]; [|congruence].
  match type of Ht with match ?c with _ => _ end = _ =>
    destruct c as [s5|] eqn:E5; [|discriminate] end.
  rewrite (process_fuel_process _ _ _ E5).
  rewrite (process_fuel_process _ _ _ Ht). reflexivity.
Qed.

(** ** The order of the queue *)

Lemma before_higher_eq a b : before a b -> higher_eq a b.
Proof. unfold before, higher_eq. lia. Qed.

Lemma before_irrefl a : ~ before a a.
Proof. unfold before. lia. Qed.

Lemma before_asym a b : before a b -> ~ before b a.
Proof. unfold before. lia. Qed.

Lemma StronglySorted_weaken {A} (R R' : A -> A -> Prop) l :
  (forall a b, R a b -> R' a b) -> StronglySorted R l -> StronglySorted R' l.
Proof.
  intros HR. induction 1 as [|a l Hs IH Hf]; constructor; auto.
  eapply Forall_impl; [|exact Hf]. auto.
Qed.

Lemma StronglySorted_app_r {A} (R : A -> A -> Prop) l1 l2 :
  StronglySorted R (l1 ++ l2) -> StronglySorted R l2.
Proof.
  induction l1 as [|a l1 IH]; simpl; [auto|].
  intros H. inversion H; auto.
Qed.

Lemma StronglySorted_insert_mid {A} (R : A -> A -> Prop) l1 l2 r :
  StronglySorted R (l1 ++ l2) ->
  Forall (fun x => R x r) l1 -> Forall (R r) l2 ->
  StronglySorted R (l1 ++ r :: l2).
Proof.
  induction l1 as [|a l1 IH]; simpl; intros Hs H1 H2.
  - now constructor.
  - inversion Hs as [|? ? Hs' Hf]; subst. inversion H1; subst.
    constructor; [now apply IH|].
    apply Forall_app in Hf as [Hf1 Hf2].
    apply Forall_app. split; [assumption|]. now constructor.
Qed.

Lemma insert_front x l :
  match l with [] => True | y :: _ => priority y <= priority x end ->
  insert x l = x :: l.
Proof.
  destruct l as [|y l]; simpl; [reflexivity|].
  intros H. apply Z.ltb_ge in H. now rewrite H.
Qed.

Lemma insert_perm x l : Permutation (insert x l) (x :: l).
Proof.
  induction l as [|y l IH]; simpl; [reflexivity|].
  destruct (priority x <? priority y); [|reflexivity].
  rewrite IH. apply perm_swap.
Qed.

Lemma sort_perm l : Permutation (sort l) l.
Proof.
  induction l as [|x l IH]; simpl; [reflexivity|].
  rewrite insert_perm. now constructor.
Qed.

(** Pushing [r] on a sorted queue and sorting again puts [r] behind the
    records of priority at least its own and in front of the others. *)
Lemma sort_push q r :
  StronglySorted higher_eq q ->
  exists q1 q2,
    q = q1 ++ q2 /\ sort (q ++ [r]) = q1 ++ r :: q2 /\
    Forall (fun x => priority r <= priority x) q1 /\
    Forall (fun x => priority x < priority r) q2.
Proof.
  induction q as [|x l IH]; intros Hs.
  - exists [], []. repeat split; constructor.
  - inversion Hs as [|? ? Hs' Hf]; subst.
    destruct (IH Hs') as (q1 & q2 & El & Esort & H1 & H2).
    simpl. rewrite Esort.
    destruct (Z.ltb_spec (priority x) (priority r)) as [Hlt|Hge].
    + assert (q1 = []) as ->.
      { destruct q1 as [|y q1]; [reflexivity|]. exfalso.
        inversion H1; subst. inversion Hf; subst. unfold higher_eq in *. lia. }
      simpl in *. subst l. exists [], (x :: q2). simpl.
      apply Z.ltb_lt in Hlt as Hb. rewrite Hb.
      rewrite insert_front.
      * repeat split; auto.
      * destruct q2; [exact I|]. inversion Hf; assumption.
    + exists (x :: q1), q2. subst l. rewrite insert_front.
      * repeat split; auto.
      * destruct q1 as [|y q1]; simpl; [assumption|].
        inversion Hf; assumption.
Qed.

Lemma throws_asyncs_perm pre :
  Permutation (map fst (throws pre) ++ map handle (asyncs pre)) (map id pre).
Proof.
  induction pre as [|r pre IH]; simpl; [constructor|].
  destruct (task r); simpl.
  - now constructor.
  - rewrite <- IH. symmetry. apply Permutation_middle.
Qed.

(** ** Invariants of the reachable states *)

Lemma Inv_constructor c : Inv (constructor c).
Proof.
  constructor; simpl; auto; try constructor.
  - intros [].
  - lia.
Qed.

Lemma pops_handles pre s s' :
  pops pre s s' -> Permutation (handles s') (handles s).
Proof.
  intros P. unfold handles.
  rewrite (pops_settled _ _ _ P), (pops_awaiting _ _ _ P), (pops_queue _ _ _ P).
  rewrite !map_app, <- !app_assoc.
  apply Permutation_app_head.
  rewrite Permutation_app_swap_app. apply Permutation_app_head.
  rewrite !app_assoc. apply Permutation_app_tail.
  apply throws_asyncs_perm.
Qed.

Lemma Inv_pops pre s s' : Inv s -> pops pre s s' -> Inv s'.
Proof.
  intros [R S H N T] P. pose proof (pops_handles _ _ _ P) as HP.
  constructor.
  - rewrite (pops_running _ _ _ P), (pops_awaiting _ _ _ P), length_app. lia.
  - rewrite (pops_queue _ _ _ P) in S. now apply StronglySorted_app_r in S.
  - intros i. rewrite (pops_next _ _ _ P), <- H.
    split; apply Permutation_in; [assumption|now symmetry].
  - eapply Permutation_NoDup; [symmetry; exact HP|assumption].
  - rewrite (pops_started _ _ _ P), (pops_settled _ _ _ P),
      (pops_awaiting _ _ _ P), T, !map_app, <- !app_assoc.
    apply Permutation_app_head.
    rewrite <- (throws_asyncs_perm pre).
    apply Permutation_app_swap_app.
Qed.


Lemma Inv_enqueue t p s : Inv s -> Inv (enqueue t p s).
Proof.
  intros [R S H N T].
  assert (Permutation (handles (enqueue t p s)) (next_handle s :: handles s))
    as HP.
  { unfold handles, enqueue; simpl. rewrite sort_perm, map_app. simpl.
    rewrite !app_assoc. rewrite <- Permutation_cons_append. reflexivity. }
  constructor; simpl; auto.
  - destruct (sort_push (queue s) (mkRecord (next_handle s) t p))
      as (q1 & q2 & Eq & Es & H1 & H2).
    { eapply StronglySorted_weaken; [|exact S]. apply before_higher_eq. }
    rewrite Es. apply StronglySorted_insert_mid.
    + now rewrite <- Eq.
    + apply Forall_forall. intros x Hx.
      rewrite Forall_forall in H1. specialize (H1 x Hx). simpl in H1.
      assert (id x < next_handle s)%nat as Hlt.
      { apply H. unfold handles. rewrite Eq, map_app, !in_app_iff.
        right; right; left. now apply in_map. }
      unfold before; simpl. lia.
    + eapply Forall_impl; [|exact H2]. intros x Hx. left. exact Hx.
  - intros i. split.
    + intros Hi. apply (Permutation_in _ HP) in Hi as [<-|Hi]; [lia|].
      apply H in Hi. lia.
    + intros Hi. apply (Permutation_in _ (Permutation_sym HP)).
      destruct (Nat.eq_dec i (next_handle s)) as [->|Hne]; [now left|right].
      apply H. lia.
  - apply (Permutation_NoDup (Permutation_sym HP)). constructor; [|assumption].
    intros Hi. apply H in Hi. lia.
Qed.

Lemma take_Some h ws w rest :
  take h ws = Some (w, rest) ->
  handle w = h /\ exists l1 l2, ws = l1 ++ w :: l2 /\ rest = l1 ++ l2.
Proof.
  revert w rest. induction ws as [|x ws IH]; intros w rest; simpl; [discriminate|].
  destruct (Nat.eqb_spec (handle x) h) as [E|E].
  - intros [= <- <-]. split; [assumption|]. now exists [], ws.
  - destruct (take h ws) as [[w' rest']|]; [|discriminate].
    intros [= <- <-]. destruct (IH _ _ eq_refl) as (Hh & l1 & l2 & -> & ->).
    split; [assumption|]. now exists (x :: l1), l2.
Qed.

Lemma take_None h ws : take h ws = None -> ~ In h (map handle ws).
Proof.
  induction ws as [|x ws IH]; simpl; [tauto|].
  destruct (Nat.eqb_spec (handle x) h) as [E|E]; [discriminate|].
  destruct (take h ws) as [[w' rest']|]; [discriminate|].
  intros _ [H|H]; [contradiction|]. now apply IH.
Qed.

Lemma take_In h ws :
  In h (map handle ws) -> exists w rest, take h ws = Some (w, rest).
Proof.
  intros H. destruct (take h ws) as [[w rest]|] eqn:E; [eauto|].
  now apply take_None in E.
Qed.

Lemma continue_handles w l1 l2 s :
  awaiting s = l1 ++ w :: l2 ->
  Permutation (handles (continue w (l1 ++ l2) s)) (handles s).
Proof.
  intros E. unfold handles, continue; simpl. rewrite E, !map_app. simpl.
  rewrite <- !app_assoc. apply Permutation_app_head. simpl.
  rewrite (Permutation_middle (map handle l1)). reflexivity.
Qed.

Lemma Inv_continue w l1 l2 s :
  Inv s -> awaiting s = l1 ++ w :: l2 -> Inv (continue w (l1 ++ l2) s).
Proof.
  intros [R S H N T] E. pose proof (continue_handles _ _ _ _ E) as HP.
  constructor; auto.
  - simpl. rewrite R, E, !length_app. simpl. lia.
  - intros i. rewrite <- H. simpl.
    split; apply Permutation_in; [assumption|now symmetry].
  - eapply Permutation_NoDup; [symmetry; exact HP|assumption].
  - simpl. rewrite T, E, !map_app. simpl. rewrite <- !app_assoc.
    apply Permutation_app_head. simpl.
    rewrite (Permutation_middle (map handle l1)). reflexivity.
Qed.

(** ** The three steps, as a preparation followed by popping *)

Lemma add_pops t p s : exists pre, pops pre (enqueue t p s) (snd (add t p s)).
Proof. apply process_pops. Qed.

Lemma setLimit_pops n s : exists pre, pops pre (set_concurrency n s) (setLimit n s).
Proof. apply process_pops. Qed.

Lemma resume_pops h w rest s :
  take h (awaiting s) = Some (w, rest) ->
  exists pre, pops pre (continue w rest s) (resume h s).
Proof.
  intros E. unfold resume. rewrite E.
  destruct (process_pops (continue w rest s)) as [pre1 P1].
  destruct (process_pops (process (continue w rest s))) as [pre2 P2].
  exists (pre1 ++ pre2). eapply pops_trans; eassumption.
Qed.

Lemma resume_idle h s : take h (awaiting s) = None -> resume h s = s.
Proof. intros E. unfold resume. now rewrite E. Qed.

Lemma Inv_set_concurrency n s : Inv s -> Inv (set_concurrency n s).
Proof. intros [R S H N T]. constructor; assumption. Qed.

Lemma Inv_take h w rest s :
  Inv s -> take h (awaiting s) = Some (w, rest) -> Inv (continue w rest s).
Proof.
  intros I E. apply take_Some in E as (_ & l1 & l2 & Ea & ->).
  now apply Inv_continue.
Qed.

Lemma Inv_step e s : Inv s -> Inv (step e s).
Proof.
  intros I. destruct e as [t p|n|h]; simpl.
  - destruct (add_pops t p s) as [pre P].
    eapply Inv_pops; [|exact P]. now apply Inv_enqueue.
  - destruct (setLimit_pops n s) as [pre P].
    eapply Inv_pops; [|exact P]. now apply Inv_set_concurrency.
  - destruct (take h (awaiting s)) as [[w rest]|] eqn:E.
    + destruct (resume_pops _ _ _ _ E) as [pre P].
      eapply Inv_pops; [|exact P]. eapply Inv_take; eassumption.
    + now rewrite resume_idle.
Qed.



Lemma run_cons e evs s : run (e :: evs) s = run evs (step e s).
Proof. reflexivity. Qed.

Lemma Inv_run evs : forall s, Inv s -> Inv (run evs s).
Proof.
  induction evs as [|e evs IH]; intros s I; [assumption|].
  rewrite run_cons. apply IH. now apply Inv_step.
Qed.


Lemma reachable_Inv s : reachable s -> Inv s.
Proof. intros (c & evs & ->). apply Inv_run, Inv_constructor. Qed.



Lemma reachable_constructor c : reachable (constructor c).
Proof. now exists c, []. Qed.

(** ** Where a handle is: queued, awaited or settled *)

Lemma NoDup_app_disjoint {A} (l1 l2 : list A) a :
  NoDup (l1 ++ l2) -> In a l1 -> In a l2 -> False.
Proof.
  induction l1 as [|x l1 IH]; simpl; [tauto|].
  intros N [->|H1] H2; inversion N; subst; [|now apply IH].
  match goal with H : ~ In _ _ |- _ => apply H end.
  apply in_or_app. now right.
Qed.

Lemma NoDup_map_eq {A B} (f : A -> B) l a b :
  NoDup (map f l) -> In a l -> In b l -> f a = f b -> a = b.
Proof.
  induction l as [|x l IH]; simpl; [tauto|].
  intros N Ha Hb E. inversion N as [|? ? Hx N']; subst.
  destruct Ha as [->|Ha], Hb as [->|Hb]; auto.
  - exfalso. apply Hx. rewrite E. now apply in_map.
  - exfalso. apply Hx. rewrite <- E. now apply in_map.
Qed.

Lemma Inv_nodup_settled s : Inv s -> NoDup (map fst (settled s)).
Proof. intros I. exact (NoDup_app_remove_r _ _ (inv_nodup _ I)). Qed.

Lemma Inv_nodup_awaiting s : Inv s -> NoDup (map handle (awaiting s)).
Proof.
  intros I. pose proof (inv_nodup _ I) as N. unfold handles in N.
  exact (NoDup_app_remove_r _ _ (NoDup_app_remove_l _ _ N)).
Qed.

Lemma Inv_nodup_queue s : Inv s -> NoDup (map id (queue s)).
Proof.
  intros I. pose proof (inv_nodup _ I) as N. unfold handles in N.
  exact (NoDup_app_remove_l _ _ (NoDup_app_remove_l _ _ N)).
Qed.

Lemma filter_none {A} (f : A -> bool) l :
  (forall x, In x l -> f x = false) -> filter f l = [].
Proof.
  induction l as [|x l IH]; simpl; intros H; [reflexivity|].
  rewrite (H x (or_introl eq_refl)). apply IH. auto.
Qed.

Lemma settlements_none h s :
  ~ In h (map fst (settled s)) -> settlements h s = [].
Proof.
  intros H. apply filter_none. intros [h' o] Hx. simpl.
  apply Nat.eqb_neq. intros ->. apply H.
  change h with (fst (h, o)). now apply in_map.
Qed.

Lemma settlements_once h o s :
  NoDup (map fst (settled s)) -> In (h, o) (settled s) ->
  settlements h s = [(h, o)].
Proof.
  unfold settlements. induction (settled s) as [|[h' o'] l IH]; simpl; [tauto|].
  intros N H. inversion N as [|? ? Hx N']; subst.
  destruct H as [[= -> ->]|H].
  - rewrite Nat.eqb_refl. f_equal. apply filter_none.
    intros [h' o'] Hi. simpl. apply Nat.eqb_neq. intros ->.
    apply Hx. change h with (fst (h, o')). now apply in_map.
  - destruct (Nat.eqb_spec h' h) as [->|Hne]; [|now apply IH].
    exfalso. apply Hx. change h with (fst (h, o)). now apply in_map.
Qed.

Lemma settlements_In h x s : In x (settlements h s) -> In x (settled s).
Proof. unfold settlements. intros H. now apply filter_In in H. Qed.

(** A handle that is queued or awaited has not been settled. *)
Lemma queued_pending s r : Inv s -> In r (queue s) -> settlements (id r) s = [].
Proof.
  intros I H. apply settlements_none. intros Hs.
  apply (NoDup_app_disjoint _ _ (id r) (inv_nodup _ I) Hs).
  apply in_or_app. right. now apply in_map.
Qed.

Lemma awaited_pending s w :
  Inv s -> In w (awaiting s) -> settlements (handle w) s = [].
Proof.
  intros I H. apply settlements_none. intros Hs.
  apply (NoDup_app_disjoint _ _ (handle w) (inv_nodup _ I) Hs).
  apply in_or_app. left. now apply in_map.
Qed.

Lemma queued_not_started s r : Inv s -> In r (queue s) -> ~ In (id r) (started s).
Proof.
  intros I H Hs. apply (Permutation_in _ (inv_started _ I)) in Hs.
  pose proof (inv_nodup _ I) as N. unfold handles in N. rewrite app_assoc in N.
  apply (NoDup_app_disjoint _ _ (id r) N Hs). now apply in_map.
Qed.

Lemma queued_not_awaited s r :
  Inv s -> In r (queue s) -> ~ In (id r) (map handle (awaiting s)).
Proof.
  intros I H Ha. pose proof (inv_nodup _ I) as N. unfold handles in N.
  apply NoDup_app_remove_l in N.
  apply (NoDup_app_disjoint _ _ (id r) N Ha). now apply in_map.
Qed.

Lemma popped_cases r pre :
  In r pre ->
  (exists o, task r = Async o /\ In (mkWorker (id r) o) (asyncs pre)) \/
  In (id r, result (task r)) (throws pre).
Proof.
  induction pre as [|x pre IH]; simpl; [tauto|].
  intros [->|H].
  - destruct (task r) as [e|o] eqn:E; simpl.
    + right. now left.
    + left. exists o. split; [reflexivity|now left].
  - destruct (IH H) as [(o & Eo & Hi)|Hi].
    + left. exists o. split; [assumption|]. destruct (task x); simpl; auto.
    + right. destruct (task x); simpl; auto.
Qed.

Lemma fate_pops pre r s s' : pops pre s s' -> fate r s -> fate r s'.
Proof.
  intros P [H|[(o & Eo & H)|H]].
  - rewrite (pops_queue _ _ _ P) in H. apply in_app_or in H as [H|H].
    + destruct (popped_cases _ _ H) as [(o & Eo & Hi)|Hi].
      * right; left. exists o. split; [assumption|].
        rewrite (pops_awaiting _ _ _ P). apply in_or_app. now right.
      * right; right. rewrite (pops_settled _ _ _ P). apply in_or_app. now right.
    + now left.
  - right; left. exists o. split; [assumption|].
    rewrite (pops_awaiting _ _ _ P). apply in_or_app. now left.
  - right; right. rewrite (pops_settled _ _ _ P). apply in_or_app. now left.
Qed.

Lemma enqueue_In t p s r :
  In r (queue (enqueue t p s)) <->
  In r (queue s) \/ r = mkRecord (next_handle s) t p.
Proof.
  simpl. split.
  - intros H. apply (Permutation_in _ (sort_perm _)) in H.
    apply in_app_or in H as [H|[<-|[]]]; auto.
  - intros H. apply (Permutation_in _ (Permutation_sym (sort_perm _))).
    apply in_or_app. destruct H as [H| ->]; [now left|right; now left].
Qed.

Lemma fate_enqueue t p r s : fate r s -> fate r (enqueue t p s).
Proof.
  intros [H|[H|H]]; [left|right; left|right; right]; auto.
  apply enqueue_In. now left.
Qed.

Lemma fate_continue w l1 l2 r s :
  awaiting s = l1 ++ w :: l2 -> fate r s -> fate r (continue w (l1 ++ l2) s).
Proof.
  intros E [H|[(o & Eo & H)|H]]; [now left| |].
  - rewrite E in H. apply in_app_or in H as [H|[->|H]].
    + right; left. exists o. split; [assumption|]. apply in_or_app. now left.
    + right; right. simpl. rewrite Eo. simpl. apply in_or_app. right. now left.
    + right; left. exists o. split; [assumption|]. apply in_or_app. now right.
  - right; right. simpl. apply in_or_app. now left.
Qed.

Lemma fate_step e r s : fate r s -> fate r (step e s).
Proof.
  intros F. destruct e as [t p|n|h]; simpl.
  - destruct (add_pops t p s) as [pre P].
    eapply fate_pops; [exact P|]. now apply fate_enqueue.
  - destruct (setLimit_pops n s) as [pre P].
    eapply fate_pops; [exact P|]. exact F.
  - destruct (take h (awaiting s)) as [[w rest]|] eqn:E.
    + destruct (resume_pops _ _ _ _ E) as [pre P].
      eapply fate_pops; [exact P|].
      apply take_Some in E as (_ & l1 & l2 & Ea & ->).
      now apply fate_continue.
    + now rewrite resume_idle.
Qed.

Lemma fate_run evs r : forall s, fate r s -> fate r (run evs s).
Proof.
  induction evs as [|e evs IH]; intros s F; [assumption|].
  rewrite run_cons. now apply IH, fate_step.
Qed.


(** ** The running counter and the limit *)

Lemma pops_running_max pre s s' :
  pops pre s s' -> running s' <= Z.max (running s) (concurrency s).
Proof.
  intros P. pose proof (pops_running _ _ _ P) as R.
  pose proof (pops_bound _ _ _ P) as B.
  destruct (asyncs pre); [simpl in R; lia|].
  assert (running s' <= concurrency s) by (apply B; discriminate). lia.
Qed.

Lemma step_running_max e s :
  running (step e s) <= Z.max (running s) (concurrency (step e s)).
Proof.
  destruct e as [t p|n|h]; cbn [step].
  - destruct (add_pops t p s) as [pre P].
    rewrite (pops_concurrency _ _ _ P).
    exact (pops_running_max _ _ _ P).
  - destruct (setLimit_pops n s) as [pre P].
    rewrite (pops_concurrency _ _ _ P).
    exact (pops_running_max _ _ _ P).
  - destruct (take h (awaiting s)) as [[w rest]|] eqn:E.
    + destruct (resume_pops _ _ _ _ E) as [pre P].
      rewrite (pops_concurrency _ _ _ P).
      pose proof (pops_running_max _ _ _ P) as M. simpl in *. lia.
    + rewrite resume_idle by assumption. lia.
Qed.

Lemma step_concurrency e s :
  concurrency (step e s) =
  match e with SetLimit n => n | _ => concurrency s end.
Proof.
  destruct e as [t p|n|h]; cbn [step].
  - destruct (add_pops t p s) as [pre P]. now rewrite (pops_concurrency _ _ _ P).
  - destruct (setLimit_pops n s) as [pre P]. now rewrite (pops_concurrency _ _ _ P).
  - destruct (take h (awaiting s)) as [[w rest]|] eqn:E.
    + destruct (resume_pops _ _ _ _ E) as [pre P].
      now rewrite (pops_concurrency _ _ _ P).
    + now rewrite resume_idle.
Qed.

Lemma never_lowered_run evs : forall s,
  running s <= concurrency s -> never_lowered evs s ->
  running (run evs s) <= concurrency (run evs s).
Proof.
  induction evs as [|e evs IH]; intros s Hs Hn; [assumption|].
  destruct Hn as [He Hn]. rewrite run_cons. apply IH; [|assumption].
  pose proof (step_running_max e s) as M.
  rewrite step_concurrency in *. destruct e; lia.
Qed.




(** C2 at Scenario D.  With limit 1, one task running and two queued,
    [setLimit(3)] starts one queued task only: the invocation of [process]
    it makes is suspended at the [await] of that task, so the running counter
    is 2 and the third task is still queued when [setLimit] returns. *)
Theorem setLimit_starts_one_task :
  let s := run [Add (Async (Fulfilled "a")) 0; Add (Async (Fulfilled "b")) 0;
                Add (Async (Fulfilled "c")) 0] (constructor 1) in
  (running s = 1 /\ map id (queue s) = [1%nat; 2%nat]) /\
  (concurrency (setLimit 3 s) = 3 /\ running (setLimit 3 s) = 2 /\
   map id (queue (setLimit 3 s)) = [2%nat] /\
   started (setLimit 3 s) = [0%nat; 1%nat]) /\
  (running (resume 0 (setLimit 3 s)) = 2 /\ queue (resume 0 (setLimit 3 s)) = []).
Proof. vm_compute. repeat split; reflexivity. Qed.

(** ** Steps that start nothing *)

Lemma process_idle s : ~ guard s -> process s = s.
Proof.
  intros G. unfold process. simpl.
  destruct (Z.ltb_spec (running s) (concurrency s)) as [Hr|Hr]; [|reflexivity].
  destruct (queue s) as [|r q] eqn:Eq; [reflexivity|].
  exfalso. apply G. split; [assumption|]. now rewrite Eq.
Qed.

Lemma pops_above pre s s' : pops pre s s' -> concurrency s < running s' -> pre = [].
Proof.
  intros P H. destruct pre as [|r pre]; [reflexivity|exfalso].
  assert (running s < concurrency s) as G by (apply (pops_guard _ _ _ P); discriminate).
  pose proof (pops_running _ _ _ P) as R.
  pose proof (pops_bound _ _ _ P) as B.
  destruct (asyncs (r :: pre)); [simpl in R; lia|].
  assert (running s' <= concurrency s) by (apply B; discriminate). lia.
Qed.

Lemma step_started e s : exists l, started (step e s) = started s ++ l.
Proof.
  destruct e as [t p|n|h]; cbn [step].
  - destruct (add_pops t p s) as [pre P]. eexists. exact (pops_started _ _ _ P).
  - destruct (setLimit_pops n s) as [pre P]. eexists. exact (pops_started _ _ _ P).
  - destruct (take h (awaiting s)) as [[w rest]|] eqn:E.
    + destruct (resume_pops _ _ _ _ E) as [pre P]. eexists.
      exact (pops_started _ _ _ P).
    + rewrite resume_idle by assumption. exists []. now rewrite app_nil_r.
Qed.

Lemma run_started evs : forall s, exists l, started (run evs s) = started s ++ l.
Proof.
  induction evs as [|e evs IH]; intros s.
  - exists []. simpl. now rewrite app_nil_r.
  - rewrite run_cons. destruct (IH (step e s)) as [l2 E2].
    destruct (step_started e s) as [l1 E1].
    exists (l1 ++ l2). now rewrite E2, E1, app_assoc.
Qed.

Lemma Inv_running_nonneg s : Inv s -> 0 <= running s.
Proof. intros I. rewrite (inv_running _ I). lia. Qed.

Lemma not_guard_nonpositive s : Inv s -> concurrency s <= 0 -> ~ guard s.
Proof. intros I H [G _]. apply Inv_running_nonneg in I. lia. Qed.

Lemma stalled_step e s :
  Inv s -> concurrency s <= 0 -> nonpositive_limit e ->
  started (step e s) = started s /\ concurrency (step e s) <= 0 /\
  forall r, In r (queue s) -> In r (queue (step e s)).
Proof.
  intros I Hc He. destruct e as [t p|n|h]; cbn [step].
  - unfold add, snd. rewrite process_idle.
    + repeat split; auto. intros r Hr. apply enqueue_In. now left.
    + apply not_guard_nonpositive; [now apply Inv_enqueue|assumption].
  - unfold setLimit. rewrite process_idle.
    + repeat split; auto.
    + apply not_guard_nonpositive; [now apply Inv_set_concurrency|assumption].
  - destruct (take h (awaiting s)) as [[w rest]|] eqn:E.
    + unfold resume. rewrite E.
      assert (~ guard (continue w rest s)) as G.
      { apply not_guard_nonpositive; [eapply Inv_take; eassumption|assumption]. }
      rewrite !process_idle; rewrite ?process_idle; auto.
    + rewrite resume_idle by assumption. auto.
Qed.

Lemma stalled_run evs : forall s,
  Inv s -> concurrency s <= 0 -> Forall nonpositive_limit evs ->
  started (run evs s) = started s /\
  forall r, In r (queue s) -> In r (queue (run evs s)).
Proof.
  induction evs as [|e evs IH]; intros s I Hc Hf; [auto|].
  inversion Hf as [|? ? He Hf']; subst.
  destruct (stalled_step e s I Hc He) as (Es & Hc' & Hq).
  rewrite run_cons.
  destruct (IH (step e s) (Inv_step _ _ I) Hc' Hf') as (Es' & Hq').
  split; [congruence|auto].
Qed.

Lemma above_limit_run evs : forall s,
  Forall not_setLimit evs -> concurrency s < running (run evs s) ->
  started (run evs s) = started s /\ concurrency s < running s.
Proof.
  induction evs as [|e evs IH]; intros s Hf H; [auto|].
  inversion Hf as [|? ? He Hf']; subst. rewrite run_cons in *.
  assert (concurrency (step e s) = concurrency s) as Ec.
  { rewrite step_concurrency. destruct e; [reflexivity|contradiction|reflexivity]. }
  destruct (IH (step e s) Hf') as (Es & Hr); [now rewrite Ec|].
  rewrite Es, Ec in *. clear Es IH H.
  destruct e as [t p|n|h]; cbn [step] in *.
  - destruct (add_pops t p s) as [pre P].
    assert (pre = []) as -> by (apply (pops_above _ _ _ P); exact Hr).
    rewrite (pops_started _ _ _ P). rewrite (pops_running _ _ _ P) in Hr.
    simpl in *. rewrite app_nil_r. split; [reflexivity|lia].
  - contradiction.
  - destruct (take h (awaiting s)) as [[w rest]|] eqn:E.
    + destruct (resume_pops _ _ _ _ E) as [pre P].
      assert (pre = []) as -> by (apply (pops_above _ _ _ P); exact Hr).
      rewrite (pops_started _ _ _ P). rewrite (pops_running _ _ _ P) in Hr.
      simpl in *. rewrite app_nil_r. split; [reflexivity|lia].
    + rewrite resume_idle in * by assumption. auto.
Qed.

Lemma worker_fate w s evs :
  Inv s -> In w (awaiting s) ->
  (In w (awaiting (run evs s)) /\ settlements (handle w) (run evs s) = []) \/
  (settlements (handle w) (run evs s) = [(handle w, awaited w)] /\
   ~ In (handle w) (map handle (awaiting (run evs s)))).
Proof.
  intros I Hw.
  pose (r := mkRecord (handle w) (Async (awaited w)) 0).
  assert (fate r s) as F.
  { right; left. exists (awaited w). split; [reflexivity|]. now destruct w. }
  apply (fate_run evs) in F. pose proof (Inv_run evs s I) as I'.
  destruct F as [F|[(o & [= <-] & F)|F]].
  - exfalso. apply (queued_not_started _ _ I') in F.
    apply F. destruct (run_started evs s) as [l ->]. apply in_or_app. left.
    apply (Permutation_in _ (Permutation_sym (inv_started _ I))).
    apply in_or_app. right. simpl. now apply in_map.
  - left. simpl in F. destruct w as [h o]. simpl in *.
    split; [assumption|]. exact (awaited_pending _ _ I' F).
  - right. simpl in F.
    split; [apply settlements_once; [now apply Inv_nodup_settled|assumption]|].
    intros Ha. pose proof (inv_nodup _ I') as N. unfold handles in N.
    apply (NoDup_app_disjoint _ _ (handle w) N).
    + change (handle w) with (fst (handle w, awaited w)). now apply in_map.
    + apply in_or_app. now left.
Qed.

(** C6.  A call [setLimit(n)] with [n] below the running counter changes
    the limit and nothing else: no suspended invocation is removed and no
    task is started.  Every task that was running stays awaited, with its
    handle pending, until its invocation is resumed, and its handle is then
    settled once, with the outcome of that task.  As long as the limit is
    not changed again, no task has been started at any later moment at which
    the running counter is still above [n]. *)
Theorem lowering_limit_aborts_nothing (s : State) (n : Z) :
  reachable s -> n < running s ->
  setLimit n s = set_concurrency n s /\
  (forall w evs, In w (awaiting s) ->
     (In w (awaiting (run evs (setLimit n s))) /\
      settlements (handle w) (run evs (setLimit n s)) = []) \/
     (settlements (handle w) (run evs (setLimit n s))
        = [(handle w, awaited w)] /\
      ~ In (handle w) (map handle (awaiting (run evs (setLimit n s)))))) /\
  (forall evs, Forall not_setLimit evs ->
     n < running (run evs (setLimit n s)) ->
     started (run evs (setLimit n s)) = started s).
Proof.
  intros Hs Hn. apply reachable_Inv in Hs as I.
  assert (setLimit n s = set_concurrency n s) as E.
  { unfold setLimit. apply process_idle. intros [G _]. simpl in G. lia. }
  split; [exact E|]. split.
  - intros w evs Hw. apply worker_fate.
    + apply (Inv_step (SetLimit n)), I.
    + now rewrite E.
  - intros evs Hf Hr. rewrite E in *.
    now destruct (above_limit_run evs (set_concurrency n s) Hf Hr) as [-> _].
Qed.

Lemma lowering_limit_aborts_nothing_witness :
  let s := run [Add (Async (Fulfilled "a")) 0; Add (Async (Rejected "b")) 0;
                Add (Async (Fulfilled "c")) 0; Add (Async (Fulfilled "d")) 7]
             (constructor 3) in
  setLimit 1 s = set_concurrency 1 s /\
  (forall w evs, In w (awaiting s) ->
     (In w (awaiting (run evs (setLimit 1 s))) /\
      settlements (handle w) (run evs (setLimit 1 s)) = []) \/
     (settlements (handle w) (run evs (setLimit 1 s))
        = [(handle w, awaited w)] /\
      ~ In (handle w) (map handle (awaiting (run evs (setLimit 1 s)))))) /\
  (forall evs, Forall not_setLimit evs ->
     1 < running (run evs (setLimit 1 s)) ->
     started (run evs (setLimit 1 s)) = started s).
Proof.
  apply lowering_limit_aborts_nothing.
  - unfold reachable. eexists _, _. reflexivity.
  - vm_compute. reflexivity.
Defined.

(** C8.  In every reachable state the running counter is the number of
    suspended invocations, hence not negative; no queued record has been
    started; a record that has been started is in the queue of no later
    state; and where the guard of the loop of [process] holds, [shift]
    yields a record. *)
Theorem dispatcher_state_invariants (s : State) :
  reachable s ->
  0 <= running s /\
  running s = Z.of_nat (length (awaiting s)) /\
  (forall r, In r (queue s) -> ~ In (id r) (started s)) /\
  (forall evs r, In (id r) (started s) -> ~ In r (queue (run evs s))) /\
  ((running s <? concurrency s) && (0 <? Z.of_nat (length (queue s))) = true ->
   exists r q, shift (queue s) = (Some r, q)).
Proof.
  intros Hs. apply reachable_Inv in Hs as I.
  split; [now apply Inv_running_nonneg|].
  split; [exact (inv_running _ I)|].
  split; [intros r; now apply queued_not_started|].
  split.
  - intros evs r Hr Hq.
    apply (queued_not_started _ _ (Inv_run evs s I) Hq).
    destruct (run_started evs s) as [l ->]. apply in_or_app. now left.
  - intros G. apply andb_true_iff in G as [_ G]. apply Z.ltb_lt in G.
    destruct (queue s) as [|r q]; [simpl in G; lia|]. now exists r, q.
Qed.

Lemma dispatcher_state_invariants_witness :
  let s := run [Add (Async (Fulfilled "a")) 0; Add (Throws "b") 2;
                Add (Async (Fulfilled "c")) 1; SetLimit 2; Finish 0]
             (constructor 1) in
  0 <= running s /\
  running s = Z.of_nat (length (awaiting s)) /\
  (forall r, In r (queue s) -> ~ In (id r) (started s)) /\
  (forall evs r, In (id r) (started s) -> ~ In r (queue (run evs s))) /\
  ((running s <? concurrency s) && (0 <? Z.of_nat (length (queue s))) = true ->
   exists r q, shift (queue s) = (Some r, q)).
Proof.
  apply dispatcher_state_invariants.
  unfold reachable. eexists _, _. reflexivity.
Defined.

(** C9.  The constructor and [setLimit] store the value they are given,
    also when it is negative.  A call [setLimit(n)] with [n <= 0] changes
    the limit field only.  While every limit given is at most 0, no task is
    started, and every queued record stays queued with its handle pending. *)
Theorem nonpositive_limit_starts_nothing (s : State) (n : Z) (evs : list Event) :
  reachable s -> n <= 0 -> Forall nonpositive_limit evs ->
  (concurrency (constructor n) = n /\
   started (run evs (constructor n)) = []) /\
  (concurrency (setLimit n s) = n /\
   setLimit n s = set_concurrency n s /\
   started (run evs (setLimit n s)) = started s /\
   forall r, In r (queue s) ->
     In r (queue (run evs (setLimit n s))) /\
     settlements (id r) (run evs (setLimit n s)) = []).
Proof.
  intros Hs Hn Hf. apply reachable_Inv in Hs as I. split.
  - split; [reflexivity|].
    now destruct (stalled_run evs (constructor n) (Inv_constructor n) Hn Hf).
  - assert (setLimit n s = set_concurrency n s) as E.
    { unfold setLimit. apply process_idle, not_guard_nonpositive;
        [now apply Inv_set_concurrency|exact Hn]. }
    pose proof (Inv_set_concurrency n s I) as I'.
    destruct (stalled_run evs (set_concurrency n s) I' Hn Hf) as (Es & Hq).
    rewrite E. repeat split; auto.
    apply queued_pending; [now apply Inv_run|auto].
Qed.

Lemma nonpositive_limit_starts_nothing_witness :
  let s := run [Add (Async (Fulfilled "a")) 0; Add (Async (Fulfilled "b")) 3;
                Add (Throws "c") 1] (constructor 1) in
  let evs := [Add (Async (Fulfilled "d")) 9; Finish 0; SetLimit (-1);
              Add (Throws "e") 4] in
  (concurrency (constructor (-2)) = -2 /\
   started (run evs (constructor (-2))) = []) /\
  (concurrency (setLimit (-2) s) = -2 /\
   setLimit (-2) s = set_concurrency (-2) s /\
   started (run evs (setLimit (-2) s)) = started s /\
   forall r, In r (queue s) ->
     In r (queue (run evs (setLimit (-2) s))) /\
     settlements (id r) (run evs (setLimit (-2) s)) = []).
Proof.
  apply nonpositive_limit_starts_nothing.
  - unfold reachable. eexists _, _. reflexivity.
  - lia.
  - repeat constructor; simpl; lia.
Defined.

(** ** Settlement of handles *)




Lemma add_fate t p s :
  fate (mkRecord (next_handle s) t p) (snd (add t p s)).
Proof.
  destruct (add_pops t p s) as [pre P]. eapply fate_pops; [exact P|].
  left. apply enqueue_In. now right.
Qed.



(** C5.  When the task awaited for a handle fails with [e], resuming its
    invocation rejects that handle with [e], once; if the slot so freed is
    within the limit, the record at the front of the queue is started in the
    same step.  A queued task that throws [e'] when it is called has its
    handle rejected with [e'] as soon as it has been started: the throw is
    caught inside [process] and does not leave [add], [setLimit] or the
    resumed invocation. *)
Theorem task_failure_is_relayed (s : State) (w : Worker) (e : Val) :
  reachable s -> In w (awaiting s) -> awaited w = Rejected e ->
  settlements (handle w) (resume (handle w) s) = [(handle w, Rejected e)] /\
  (forall r q, queue s = r :: q -> running s - 1 < concurrency s ->
     In (id r) (started (resume (handle w) s)) /\ ~ In (id r) (started s)) /\
  (forall r e' evs, In r (queue s) -> task r = Throws e' ->
     In (id r) (started (run evs s)) ->
     settlements (id r) (run evs s) = [(id r, Rejected e')]).
Proof.
  intros Hs Hw He. apply reachable_Inv in Hs as I.
  destruct (take_In (handle w) (awaiting s)) as (w' & rest & E);
    [now apply in_map|].
  pose proof E as E'. apply take_Some in E' as (Hh & l1 & l2 & Ea & Er).
  assert (w' = w) as ->.
  { apply (NoDup_map_eq handle (awaiting s));
      [now apply Inv_nodup_awaiting| |assumption|assumption].
    rewrite Ea. apply in_elt. }
  destruct (resume_pops _ _ _ _ E) as [pre P].
  pose proof (Inv_pops _ _ _ (Inv_take _ _ _ _ I E) P) as I'.
  split; [|split].
  - apply settlements_once; [now apply Inv_nodup_settled|].
    rewrite (pops_settled _ _ _ P). apply in_or_app. left. simpl.
    apply in_or_app. right. rewrite He. now left.
  - intros r q Eq Hr. split.
    + rewrite (pops_started _ _ _ P). apply in_or_app. right.
      pose proof (pops_queue _ _ _ P) as Q. simpl in Q. rewrite Eq in Q.
      destruct pre as [|r' pre].
      * exfalso. apply (pops_head _ _ _ P eq_refl). split; simpl; [lia|].
        now rewrite Eq.
      * injection Q as <- _. now left.
    + apply queued_not_started; [assumption|]. rewrite Eq. now left.
  - intros r e' evs Hr Et Hst.
    assert (fate r s) as F by now left.
    apply (fate_run evs) in F. pose proof (Inv_run evs s I) as Ir.
    destruct F as [F|[(o & Eo & _)|F]].
    + now apply (queued_not_started _ _ Ir) in F.
    + congruence.
    + rewrite Et in F. simpl in F.
      apply settlements_once; [now apply Inv_nodup_settled|assumption].
Qed.

(** Scenario C: limit 1, a task failing with "X", then a second task. *)
Lemma task_failure_is_relayed_witness :
  let s := run [Add (Async (Rejected "X")) 0; Add (Async (Fulfilled "next")) 0]
             (constructor 1) in
  let w := mkWorker 0 (Rejected "X") in
  settlements (handle w) (resume (handle w) s) = [(handle w, Rejected "X")] /\
  (forall r q, queue s = r :: q -> running s - 1 < concurrency s ->
     In (id r) (started (resume (handle w) s)) /\ ~ In (id r) (started s)) /\
  (forall r e' evs, In r (queue s) -> task r = Throws e' ->
     In (id r) (started (run evs s)) ->
     settlements (id r) (run evs s) = [(id r, Rejected e')]).
Proof.
  apply task_failure_is_relayed.
  - unfold reachable. eexists _, _. reflexivity.
  - vm_compute. now left.
  - reflexivity.
Defined.

(** C7, as the code has it.  A call of [add] or [setLimit] starts records
    from the front of the queue and returns without resuming any suspended
    invocation: the tasks it starts that return are left awaited, every
    awaited handle is pending when the call returns, and the only
    settlements made inside the call are the rejections of the started tasks
    that threw when they were called. *)
Theorem calls_await_no_task (s : State) (t : Task) (p n : Z) :
  reachable s ->
  (exists pre,
     queue (enqueue t p s) = pre ++ queue (snd (add t p s)) /\
     started (snd (add t p s)) = started s ++ map id pre /\
     awaiting (snd (add t p s)) = awaiting s ++ asyncs pre /\
     settled (snd (add t p s)) = settled s ++ throws pre) /\
  (exists pre,
     queue s = pre ++ queue (setLimit n s) /\
     started (setLimit n s) = started s ++ map id pre /\
     awaiting (setLimit n s) = awaiting s ++ asyncs pre /\
     settled (setLimit n s) = settled s ++ throws pre) /\
  (forall w, In w (awaiting (snd (add t p s))) ->
     settlements (handle w) (snd (add t p s)) = []) /\
  (forall w, In w (awaiting (setLimit n s)) ->
     settlements (handle w) (setLimit n s) = []).
Proof.
  intros Hs. apply reachable_Inv in Hs as I.
  destruct (add_pops t p s) as [pre1 P1].
  destruct (setLimit_pops n s) as [pre2 P2].
  split; [|split; [|split]].
  - exists pre1. destruct P1 as [Q _ _ A S T _ _ _ _ _]. auto.
  - exists pre2. destruct P2 as [Q _ _ A S T _ _ _ _ _]. auto.
  - intros w. apply awaited_pending. exact (Inv_step (Add t p) s I).
  - intros w. apply awaited_pending. exact (Inv_step (SetLimit n) s I).
Qed.

Lemma calls_await_no_task_witness :
  let s := run [Add (Async (Fulfilled "a")) 0; Add (Throws "b") 1;
                Add (Async (Fulfilled "c")) 0] (constructor 1) in
  let t := Async (Fulfilled "d") in
  (exists pre,
     queue (enqueue t 4 s) = pre ++ queue (snd (add t 4 s)) /\
     started (snd (add t 4 s)) = started s ++ map id pre /\
     awaiting (snd (add t 4 s)) = awaiting s ++ asyncs pre /\
     settled (snd (add t 4 s)) = settled s ++ throws pre) /\
  (exists pre,
     queue s = pre ++ queue (setLimit 3 s) /\
     started (setLimit 3 s) = started s ++ map id pre /\
     awaiting (setLimit 3 s) = awaiting s ++ asyncs pre /\
     settled (setLimit 3 s) = settled s ++ throws pre) /\
  (forall w, In w (awaiting (snd (add t 4 s))) ->
     settlements (handle w) (snd (add t 4 s)) = []) /\
  (forall w, In w (awaiting (setLimit 3 s)) ->
     settlements (handle w) (setLimit 3 s) = []).
Proof.
  apply calls_await_no_task.
  unfold reachable. eexists _, _. reflexivity.
Defined.

(** C7 as stated fails: a task that throws when it is called has run to
    completion, and its handle has been rejected, when [add] returns. *)
Lemma add_runs_throwing_task_inside_call :
  let h := fst (add (Throws "X") 0 (constructor 1)) in
  let s := snd (add (Throws "X") 0 (constructor 1)) in
  started s = [h] /\ awaiting s = [] /\ running s = 0 /\
  settlements h s = [(h, Rejected "X")] /\
  ~ (forall i, In i (started s) -> In i (map handle (awaiting s))).
Proof.
  vm_compute. repeat split; try reflexivity.
  intros H. exact (H 0%nat (or_introl eq_refl)).
Qed.

(** ** The order in which tasks are started *)

Lemma precedes_cons {A} (x y z : A) l : precedes x y l -> precedes x y (z :: l).
Proof. intros (l1 & l2 & -> & H). now exists (z :: l1), l2. Qed.

Lemma precedes_app_l {A} (x y : A) l0 l :
  precedes x y l -> precedes x y (l0 ++ l).
Proof.
  intros H. induction l0 as [|z l0 IH]; simpl; [assumption|].
  now apply precedes_cons.
Qed.

Lemma precedes_map {A B} (f : A -> B) x y l :
  precedes x y l -> precedes (f x) (f y) (map f l).
Proof.
  intros (l1 & l2 & -> & H). exists (map f l1), (map f l2).
  rewrite map_app. simpl. split; [reflexivity|now apply in_map].
Qed.

Lemma precedes_insert {A} (x y z : A) la lb :
  precedes x y (la ++ lb) -> precedes x y (la ++ z :: lb).
Proof.
  intros (l1 & l2 & E & H).
  apply app_eq_app in E as [l' [[-> E]|[-> E]]].
  - destruct l' as [|x' l']; simpl in E.
    + subst lb. exists (l1 ++ [z]), l2. rewrite <- !app_assoc. now split.
    + injection E as <- ->. exists l1, (l' ++ z :: lb).
      rewrite <- app_assoc. split; [reflexivity|].
      apply in_app_or in H as [H|H]; apply in_or_app; [now left|right; now right].
  - subst lb. exists (la ++ z :: l'), l2. rewrite <- app_assoc. now split.
Qed.

Lemma sorted_precedes a b l :
  StronglySorted before l -> In a l -> In b l -> before a b -> precedes a b l.
Proof.
  induction 1 as [|x l Hs IH Hf]; simpl; [tauto|].
  intros [->|Ha] [->|Hb] Hab.
  - now apply before_irrefl in Hab.
  - now exists [], l.
  - exfalso. rewrite Forall_forall in Hf. apply (before_asym _ _ Hab). auto.
  - apply precedes_cons. auto.
Qed.

Lemma precedes_started {A} (x y : A) l1 l2 :
  NoDup (l1 ++ l2) -> precedes x y (l1 ++ l2) -> In y l1 -> precedes x y l1.
Proof.
  intros N (la & lb & E & H) Hy.
  apply app_eq_app in E as [l' [[-> E]|[-> E]]].
  - destruct l' as [|x' l']; simpl in E.
    + exfalso. apply (NoDup_app_disjoint _ _ y N Hy). rewrite <- E. now right.
    + injection E as <- ->. exists la, l'. split; [reflexivity|].
      apply in_app_or in H as [H|H]; [assumption|exfalso].
      exact (NoDup_app_disjoint _ _ y N Hy H).
  - exfalso. apply (NoDup_app_disjoint _ _ y N Hy). rewrite E.
    apply in_or_app. right. now right.
Qed.

Lemma start_order_pops pre s s' : pops pre s s' -> start_order s' = start_order s.
Proof.
  intros P. unfold start_order.
  now rewrite (pops_started _ _ _ P), (pops_queue _ _ _ P), map_app, app_assoc.
Qed.

Lemma start_order_nodup s : Inv s -> NoDup (start_order s).
Proof.
  intros I. apply (Permutation_NoDup (l := handles s)); [|exact (inv_nodup _ I)].
  unfold start_order, handles. rewrite app_assoc.
  apply Permutation_app_tail. symmetry. exact (inv_started _ I).
Qed.

Lemma precedes_step e x y s :
  Inv s -> precedes x y (start_order s) -> precedes x y (start_order (step e s)).
Proof.
  intros I H. destruct e as [t p|n|h]; cbn [step].
  - destruct (add_pops t p s) as [pre P]. rewrite (start_order_pops _ _ _ P).
    unfold start_order in *. simpl.
    destruct (sort_push (queue s) (mkRecord (next_handle s) t p))
      as (q1 & q2 & Eq & Es & _).
    { eapply StronglySorted_weaken; [|exact (inv_sorted _ I)].
      apply before_higher_eq. }
    rewrite Es, map_app. simpl. rewrite app_assoc. apply precedes_insert.
    now rewrite <- app_assoc, <- map_app, <- Eq.
  - destruct (setLimit_pops n s) as [pre P]. now rewrite (start_order_pops _ _ _ P).
  - destruct (take h (awaiting s)) as [[w rest]|] eqn:E.
    + destruct (resume_pops _ _ _ _ E) as [pre P].
      now rewrite (start_order_pops _ _ _ P).
    + now rewrite resume_idle.
Qed.

Lemma precedes_run evs x y : forall s,
  Inv s -> precedes x y (start_order s) -> precedes x y (start_order (run evs s)).
Proof.
  induction evs as [|e evs IH]; intros s I H; [assumption|].
  rewrite run_cons. apply IH; [now apply Inv_step|now apply precedes_step].
Qed.

(** C3.  In every reachable state the record at the front of the queue,
    which is the one [shift] removes, comes before every other queued
    record: it has greater priority, or the same priority and an earlier
    submission.  Of two queued records, the one of greater priority, or of
    equal priority and earlier submission, is started first, whatever
    happens in between.  A call of [add] removes no suspended invocation and
    settles none of their handles, whatever the priority of the new task. *)
Theorem starts_follow_priority_then_arrival (s : State) :
  reachable s ->
  (forall t p r q,
     shift (queue s) = (Some r, q) \/
     shift (queue (enqueue t p s)) = (Some r, q) ->
     Forall (before r) q) /\
  (forall a b evs, In a (queue s) -> In b (queue s) -> before a b ->
     In (id b) (started (run evs s)) ->
     precedes (id a) (id b) (started (run evs s))) /\
  (forall w t p, In w (awaiting s) ->
     In w (awaiting (snd (add t p s))) /\
     settlements (handle w) (snd (add t p s)) = []).
Proof.
  intros Hs. apply reachable_Inv in Hs as I. split; [|split].
  - assert (forall s0 r q, Inv s0 -> shift (queue s0) = (Some r, q) ->
              Forall (before r) q) as Hhead.
    { intros s0 r q I0 E. pose proof (inv_sorted _ I0) as S.
      destruct (queue s0) as [|r' q']; [discriminate|].
      injection E as <- <-. now inversion S. }
    intros t p r q [E|E]; [now apply (Hhead s)|].
    apply (Hhead (enqueue t p s)); [now apply Inv_enqueue|exact E].
  - intros a b evs Ha Hb Hab Hst.
    pose proof (Inv_run evs s I) as I'.
    apply (precedes_started _ _ _ (map id (queue (run evs s))));
      [exact (start_order_nodup _ I')| |exact Hst].
    apply precedes_run; [assumption|].
    apply precedes_app_l, precedes_map, sorted_precedes; auto.
    exact (inv_sorted _ I).
  - intros w t p Hw.
    assert (In w (awaiting (snd (add t p s)))) as Hw'.
    { destruct (add_pops t p s) as [pre P]. rewrite (pops_awaiting _ _ _ P).
      apply in_or_app. now left. }
    split; [exact Hw'|].
    exact (awaited_pending _ _ (Inv_step (Add t p) s I) Hw').
Qed.

Lemma starts_follow_priority_then_arrival_witness :
  let s := run [Add (Async (Fulfilled "a")) 0; Add (Async (Fulfilled "b")) 0;
                Add (Async (Fulfilled "c")) 5; Add (Async (Fulfilled "d")) 0;
                Add (Throws "e") 5] (constructor 1) in
  (forall t p r q,
     shift (queue s) = (Some r, q) \/
     shift (queue (enqueue t p s)) = (Some r, q) ->
     Forall (before r) q) /\
  (forall a b evs, In a (queue s) -> In b (queue s) -> before a b ->
     In (id b) (started (run evs s)) ->
     precedes (id a) (id b) (started (run evs s))) /\
  (forall w t p, In w (awaiting s) ->
     In w (awaiting (snd (add t p s))) /\
     settlements (handle w) (snd (add t p s)) = []).
Proof.
  apply starts_follow_priority_then_arrival.
  unfold reachable. eexists _, _. reflexivity.
Defined.

End QueueProperties.

(** * Properties of the fetch wrappers *)

Module FetchProperties.
Import FetchWithTimeout.

Lemma manual_settled evs : forall st o,
  returned st = Some o -> returned (fold_left manual_on evs st) = Some o.
Proof.
  induction evs as [|ev evs IH]; intros st o H; [assumption|].
  simpl. apply IH. destruct ev as [[r|e]|]; simpl; rewrite ?H; auto.
  destruct (timeoutId st); simpl; rewrite ?H; auto.
Qed.

Lemma raced_settled evs : forall st o,
  race st = Some o -> race (fold_left raced_on evs st) = Some o.
Proof.
  induction evs as [|ev evs IH]; intros st o H; [assumption|].
  simpl. apply IH. destruct ev as [o'|]; simpl; rewrite ?H; auto.
  destruct (timeoutPromise st); simpl; rewrite ?H; auto.
Qed.

(** C10.  For every behaviour of the event loop, every [url] and every
    [ms], the promises returned by [fetchWithTimeout] and by
    [fetchWithTimeoutClean] have the same state, and it is the one the claim
    gives: the outcome of the fetch (its response, or its error) when the
    fetch settles before the timer fires, a rejection with
    "Request Timed Out" when the timer fires first. *)
Theorem fetchWithTimeout_equivalent
    (eventLoop : string -> Z -> list Event) (url : string) (ms : Z) :
  fetchWithTimeout eventLoop url ms = fetchWithTimeoutClean eventLoop url ms /\
  fetchWithTimeout eventLoop url ms = first_to_settle (eventLoop url ms) /\
  (forall response rest,
     eventLoop url ms = FetchSettles (Fulfilled response) :: rest ->
     fetchWithTimeoutClean eventLoop url ms = Some (Fulfilled response)) /\
  (forall error rest,
     eventLoop url ms = FetchSettles (Rejected error) :: rest ->
     fetchWithTimeoutClean eventLoop url ms = Some (Rejected error)) /\
  (forall rest,
     eventLoop url ms = TimerFires :: rest ->
     fetchWithTimeoutClean eventLoop url ms
       = Some (Rejected "Request Timed Out")).
Proof.
  unfold fetchWithTimeout, fetchWithTimeoutClean.
  assert (returned (fold_left manual_on (eventLoop url ms) (mkManual None true))
          = first_to_settle (eventLoop url ms)) as E1.
  { destruct (eventLoop url ms) as [|[[r|e]|] evs]; simpl; [reflexivity| | |];
      now apply manual_settled. }
  assert (race (fold_left raced_on (eventLoop url ms) (mkRaced None None))
          = first_to_settle (eventLoop url ms)) as E2.
  { destruct (eventLoop url ms) as [|[o|] evs]; simpl; [reflexivity| |];
      now apply raced_settled. }
  rewrite E1, E2. repeat split; intros; 
    match goal with H : eventLoop _ _ = _ |- _ => now rewrite H end.
Qed.

(** The timer fires first and the fetch succeeds later. *)
Lemma fetchWithTimeout_equivalent_witness :
  let eventLoop := fun (_ : string) (_ : Z) =>
    [TimerFires; FetchSettles (Fulfilled "late")] in
  fetchWithTimeout eventLoop "https://api.example.com/data" 5000
    = fetchWithTimeoutClean eventLoop "https://api.example.com/data" 5000 /\
  fetchWithTimeoutClean eventLoop "https://api.example.com/data" 5000
    = Some (Rejected "Request Timed Out").
Proof.
  intros eventLoop.
  destruct (fetchWithTimeout_equivalent eventLoop
              "https://api.example.com/data" 5000) as (E & _ & _ & _ & T).
  split; [exact E|]. exact (T _ eq_refl).
Defined.

End FetchProperties.

(** * Further behaviour of the queue *)

Module QueueBehaviour.
Import DynamicPriorityQueue QueueProperties.

Lemma pops_saturates pre s s' :
  pops pre s s' -> concurrency s - 1 <= running s -> ~ guard s'.
Proof.
  intros P H. destruct (pops_end _ _ _ P) as [E|E]; [|exact E].
  intros [G _]. pose proof (pops_running _ _ _ P) as R.
  rewrite (pops_concurrency _ _ _ P) in G.
  destruct (asyncs pre); [congruence|cbn [length] in R; lia].
Qed.

Lemma pops_empties pre s s' : pops pre s s' -> queue s = [] -> ~ guard s'.
Proof.
  intros P Hq [_ G]. apply G.
  pose proof (pops_queue _ _ _ P) as Q. rewrite Hq in Q.
  symmetry in Q. now apply app_eq_nil in Q.
Qed.

Lemma saturated_step e s :
  not_setLimit e -> ~ guard s -> ~ guard (step e s).
Proof.
  intros He Hs. destruct e as [t p|n|h]; cbn [step]; [| contradiction |].
  - destruct (add_pops t p s) as [pre P].
    destruct (Z.lt_ge_cases (running s) (concurrency s)) as [Hlt|Hge].
    + assert (queue s = []) as Hq.
      { destruct (queue s) eqn:Eq; [reflexivity|]. exfalso. apply Hs.
        split; [assumption|]. now rewrite Eq. }
      destruct (pops_end _ _ _ P) as [E|E]; [|exact E].
      intros [_ G]. apply G.
      pose proof (pops_queue _ _ _ P) as Q. simpl in Q. rewrite Hq in Q.
      simpl in Q. destruct pre as [|r pre]; [now elim E|].
      injection Q as _ Q. symmetry in Q. now apply app_eq_nil in Q.
    + apply (pops_saturates _ _ _ P). simpl. lia.
  - destruct (take h (awaiting s)) as [[w rest]|] eqn:E.
    + destruct (resume_pops _ _ _ _ E) as [pre P].
      destruct (Z.lt_ge_cases (running s) (concurrency s)) as [Hlt|Hge].
      * apply (pops_empties _ _ _ P). simpl.
        destruct (queue s) eqn:Eq; [reflexivity|]. exfalso. apply Hs.
        split; [assumption|]. now rewrite Eq.
      * apply (pops_saturates _ _ _ P). simpl. lia.
    + now rewrite resume_idle.
Qed.

Lemma not_setLimit_never_lowered evs : forall s,
  Forall not_setLimit evs -> never_lowered evs s.
Proof.
  induction evs as [|e evs IH]; intros s Hf; [exact I|].
  inversion Hf as [|? ? He Hf']; subst. split; [|now apply IH].
  destruct e; [exact I|contradiction|exact I].
Qed.

Lemma run_concurrency_fixed evs : forall s,
  Forall not_setLimit evs -> concurrency (run evs s) = concurrency s.
Proof.
  induction evs as [|e evs IH]; intros s Hf; [reflexivity|].
  inversion Hf as [|? ? He Hf']; subst. rewrite run_cons, IH by assumption.
  rewrite step_concurrency. destruct e; [reflexivity|contradiction|reflexivity].
Qed.

(** X1.  While the limit is the one given to the constructor, no slot is
    left free beside a queued record: after every step of a run without
    [setLimit], a record is queued only if the running counter has reached
    the limit; with a limit of at least 0 the running counter is then
    exactly the limit. *)
Theorem fixed_limit_is_used_fully (c : Z) (evs : list Event) :
  Forall not_setLimit evs ->
  (running (run evs (constructor c)) < concurrency (run evs (constructor c)) ->
   queue (run evs (constructor c)) = []) /\
  (0 <= c -> queue (run evs (constructor c)) <> [] ->
   running (run evs (constructor c)) = c).
Proof.
  intros Hf.
  assert (forall s, ~ guard s -> ~ guard (run evs s)) as H.
  { clear c. induction Hf as [|e evs He Hf IH]; intros s Hs; [assumption|].
    rewrite run_cons. now apply IH, saturated_step. }
  specialize (H (constructor c) ltac:(intros [_ G]; now apply G)).
  split.
  - intros Hr.
    destruct (queue (run evs (constructor c))) eqn:Eq; [reflexivity|exfalso].
    apply H. split; [assumption|]. now rewrite Eq.
  - intros Hc Hq.
    pose proof (never_lowered_run evs (constructor c) ltac:(simpl; lia)
                  (not_setLimit_never_lowered evs _ Hf)) as Hle.
    pose proof (run_concurrency_fixed evs (constructor c) Hf) as Ec.
    simpl in Ec.
    destruct (Z.lt_ge_cases (running (run evs (constructor c)))
                (concurrency (run evs (constructor c)))) as [Hlt|Hge]; [|lia].
    exfalso. apply H. now split.
Qed.

Lemma fixed_limit_is_used_fully_witness :
  let evs := [Add (Async (Fulfilled "a")) 0; Add (Throws "b") 3;
              Add (Async (Fulfilled "c")) 1; Add (Async (Fulfilled "d")) 1;
              Finish 0; Add (Async (Rejected "e")) 0;
              Add (Async (Fulfilled "f")) 2] in
  queue (run evs (constructor 2)) <> [] /\
  running (run evs (constructor 2)) = 2.
Proof.
  intros evs.
  assert (queue (run evs (constructor 2)) <> []) as Hq
    by (vm_compute; discriminate).
  split; [exact Hq|].
  apply (proj2 (fixed_limit_is_used_fully 2 evs ltac:(repeat constructor)));
    [lia|exact Hq].
Defined.

Lemma process_fuel_awaits_few n : forall s s' pre,
  process_fuel n s = Some s' -> queue s = pre ++ queue s' ->
  (length (asyncs pre) <= 1 + length (throws pre))%nat.
Proof.
  induction n as [|n IH]; intros s s' pre Hp Hq; [discriminate|].
  simpl in Hp.
  destruct ((running s <? concurrency s) && (0 <? Z.of_nat (length (queue s)))).
  - destruct (queue s) as [|r q] eqn:Equeue; simpl in Hp.
    + injection Hp as <-. simpl in Hq. rewrite Equeue in Hq.
      symmetry in Hq. apply app_eq_nil in Hq as [-> _]. simpl. lia.
    + destruct (task r) as [e|o] eqn:Et.
      * destruct (process_fuel n _) as [s5|] eqn:E5 in Hp; [|discriminate].
        destruct (process_fuel_pops _ _ _ E5) as [pre1 P1].
        destruct (process_fuel_pops _ _ _ Hp) as [pre2 P2].
        pose proof (pops_queue _ _ _ P1) as Q1.
        pose proof (pops_queue _ _ _ P2) as Q2. simpl in Q1.
        assert (pre = r :: pre1 ++ pre2) as ->.
        { apply (app_inv_tail (queue s')). rewrite <- Hq, Q1, Q2.
          simpl. now rewrite app_assoc. }
        pose proof (IH _ _ _ E5 Q1). pose proof (IH _ _ _ Hp Q2).
        simpl. rewrite Et, asyncs_app, throws_app. simpl.
        rewrite !length_app. lia.
      * injection Hp as <-. simpl in Hq.
        assert (pre = [r]) as ->.
        { apply (app_inv_tail q). now rewrite <- Hq. }
        simpl. rewrite Et. simpl. lia.
  - injection Hp as <-.
    assert (pre = []) as ->.
    { apply (app_inv_tail (queue s)). now rewrite <- Hq. }
    simpl. lia.
Qed.

Lemma process_awaits_few s pre :
  pops pre s (process s) ->
  (length (asyncs pre) <= 1 + length (throws pre))%nat.
Proof.
  intros P. apply (process_fuel_awaits_few _ _ _ _ (process_total s)).
  exact (pops_queue _ _ _ P).
Qed.

(** X2.  One call of [add] or [setLimit] leaves at most one more task
    awaited than it rejects tasks that threw; the resumption of an
    invocation, which calls [process] and then goes round its own loop,
    leaves at most two more.  So where no queued task throws, a call starts
    at most one task, however many slots are free. *)
Theorem call_starts_at_most_one_awaited (s : State) (t : Task) (p n : Z) (h : nat) :
  (length (awaiting (snd (add t p s)))
     <= length (awaiting s) + 1
        + (length (settled (snd (add t p s))) - length (settled s)))%nat /\
  (length (awaiting (setLimit n s))
     <= length (awaiting s) + 1
        + (length (settled (setLimit n s)) - length (settled s)))%nat /\
  (length (awaiting (resume h s))
     <= length (awaiting s) + 1
        + (length (settled (resume h s)) - length (settled s) - 1))%nat.
Proof.
  split; [|split].
  - destruct (add_pops t p s) as [pre P].
    pose proof (process_awaits_few _ _ P).
    rewrite (pops_awaiting _ _ _ P), (pops_settled _ _ _ P), !length_app.
    simpl. lia.
  - destruct (setLimit_pops n s) as [pre P].
    pose proof (process_awaits_few _ _ P).
    rewrite (pops_awaiting _ _ _ P), (pops_settled _ _ _ P), !length_app.
    simpl. lia.
  - unfold resume. destruct (take h (awaiting s)) as [[w rest]|] eqn:E; [|lia].
    destruct (process_pops (continue w rest s)) as [pre1 P1].
    destruct (process_pops (process (continue w rest s))) as [pre2 P2].
    pose proof (process_awaits_few _ _ P1).
    pose proof (process_awaits_few _ _ P2).
    apply take_Some in E as (_ & l1 & l2 & Ea & ->).
    rewrite (pops_awaiting _ _ _ P2), (pops_settled _ _ _ P2),
      (pops_awaiting _ _ _ P1), (pops_settled _ _ _ P1), Ea, !length_app.
    simpl. rewrite !length_app. simpl. lia.
Qed.

Lemma highest_limit_le evs : forall m, m <= highest_limit evs m.
Proof.
  induction evs as [|e evs IH]; intros m; simpl; [lia|].
  destruct e; try apply IH. etransitivity; [|apply IH]. lia.
Qed.

Lemma highest_limit_mono evs : forall m m',
  m <= m' -> highest_limit evs m <= highest_limit evs m'.
Proof.
  induction evs as [|e evs IH]; intros m m' H; simpl; [assumption|].
  destruct e; apply IH; lia.
Qed.

Lemma running_below_highest evs : forall s,
  running (run evs s)
  <= Z.max (running s) (highest_limit evs (concurrency s)).
Proof.
  induction evs as [|e evs IH]; intros s; [simpl; lia|].
  rewrite run_cons. etransitivity; [apply IH|].
  pose proof (step_running_max e s) as M.
  rewrite step_concurrency in *.
  change (highest_limit (e :: evs) (concurrency s))
    with (highest_limit evs
            match e with SetLimit n => Z.max (concurrency s) n
                       | _ => concurrency s end).
  destruct e as [t p|n|h].
  - pose proof (highest_limit_le evs (concurrency s)). lia.
  - pose proof (highest_limit_le evs (Z.max (concurrency s) n)).
    pose proof (highest_limit_mono evs n (Z.max (concurrency s) n)
                  ltac:(lia)).
    lia.
  - pose proof (highest_limit_le evs (concurrency s)). lia.
Qed.

(** X3.  Whatever the interleaving, the running counter never exceeds the
    largest limit that has been in effect since the queue was constructed
    (nor 0, when every limit was negative). *)
Theorem running_below_highest_limit (c : Z) (evs : list Event) :
  running (run evs (constructor c)) <= Z.max 0 (highest_limit evs c).
Proof. exact (running_below_highest evs (constructor c)). Qed.

(** X4.  No task is called twice: in every reachable state the records
    shifted so far are pairwise distinct, and a handle has been started
    exactly when its task is awaited or it has been settled. *)
Theorem tasks_start_at_most_once (s : State) :
  reachable s ->
  NoDup (started s) /\
  forall h, In h (started s) <->
            In h (map handle (awaiting s)) \/ In h (map fst (settled s)).
Proof.
  intros Hs. apply reachable_Inv in Hs as I. split.
  - exact (NoDup_app_remove_r _ _ (start_order_nodup _ I)).
  - intros h. pose proof (inv_started _ I) as T. split; intros H.
    + apply (Permutation_in _ T) in H. apply in_app_or in H. tauto.
    + apply (Permutation_in _ (Permutation_sym T)). apply in_or_app. tauto.
Qed.

Lemma tasks_start_at_most_once_witness :
  let s := run [Add (Async (Fulfilled "a")) 0; Add (Throws "b") 3;
                Add (Async (Fulfilled "c")) 1; Finish 0; SetLimit 4]
             (constructor 1) in
  NoDup (started s) /\
  forall h, In h (started s) <->
            In h (map handle (awaiting s)) \/ In h (map fst (settled s)).
Proof.
  apply tasks_start_at_most_once.
  unfold reachable. eexists _, _. reflexivity.
Defined.

Lemma NoDup_below_length (l : list nat) (n : nat) :
  NoDup l -> (forall i, In i l <-> (i < n)%nat) -> length l = n.
Proof.
  intros N H. rewrite <- (length_seq n 0).
  apply Permutation_length, NoDup_Permutation; [assumption|apply seq_NoDup|].
  intros i. rewrite H, in_seq. lia.
Qed.

(** X5.  Every record is in exactly one place: in every reachable state the
    number of promises created by [add] is the number of queued records plus
    the number of awaited tasks plus the number of settled handles, and the
    number of started tasks is the sum of the last two. *)
Theorem every_record_accounted_for (s : State) :
  reachable s ->
  next_handle s
    = (length (queue s) + length (awaiting s) + length (settled s))%nat /\
  length (started s) = (length (awaiting s) + length (settled s))%nat.
Proof.
  intros Hs. apply reachable_Inv in Hs as I. split.
  - rewrite <- (NoDup_below_length (handles s) (next_handle s));
      [|exact (inv_nodup _ I)|exact (inv_handles _ I)].
    unfold handles. rewrite !length_app, !length_map. lia.
  - rewrite (Permutation_length (inv_started _ I)), length_app, !length_map. lia.
Qed.

Lemma every_record_accounted_for_witness :
  let s := run [Add (Async (Fulfilled "a")) 0; Add (Throws "b") 3;
                Add (Async (Fulfilled "c")) 1; Finish 0; Add (Throws "d") 0]
             (constructor 1) in
  next_handle s
    = (length (queue s) + length (awaiting s) + length (settled s))%nat /\
  length (started s) = (length (awaiting s) + length (settled s))%nat.
Proof.
  apply every_record_accounted_for.
  unfold reachable. eexists _, _. reflexivity.
Defined.

(** X6.  [add] keeps the queued records in their order and puts the new
    record behind every queued record of priority at least its own and in
    front of every queued record of smaller priority.  When no slot is free,
    that is all [add] does: nothing is started. *)
Theorem add_inserts_by_priority (s : State) (t : Task) (p : Z) :
  reachable s ->
  (exists q1 q2,
     queue s = q1 ++ q2 /\
     queue (enqueue t p s) = q1 ++ mkRecord (next_handle s) t p :: q2 /\
     Forall (fun x => p <= priority x) q1 /\
     Forall (fun x => priority x < p) q2) /\
  (concurrency s <= running s -> snd (add t p s) = enqueue t p s).
Proof.
  intros Hs. apply reachable_Inv in Hs as I. split.
  - destruct (sort_push (queue s) (mkRecord (next_handle s) t p))
      as (q1 & q2 & Eq & Es & H1 & H2).
    { eapply StronglySorted_weaken; [|exact (inv_sorted _ I)].
      apply before_higher_eq. }
    exists q1, q2. auto.
  - intros H. unfold add, snd. apply process_idle.
    intros [G _]. simpl in G. lia.
Qed.

Lemma add_inserts_by_priority_witness :
  let s := run [Add (Async (Fulfilled "a")) 0; Add (Async (Fulfilled "b")) 1;
                Add (Async (Fulfilled "c")) 7; Add (Throws "d") 1]
             (constructor 1) in
  (exists q1 q2,
     queue s = q1 ++ q2 /\
     queue (enqueue (Async (Fulfilled "e")) 1 s)
       = q1 ++ mkRecord (next_handle s) (Async (Fulfilled "e")) 1 :: q2 /\
     Forall (fun x => 1 <= priority x) q1 /\
     Forall (fun x => priority x < 1) q2) /\
  (concurrency s <= running s ->
   snd (add (Async (Fulfilled "e")) 1 s) = enqueue (Async (Fulfilled "e")) 1 s).
Proof.
  apply add_inserts_by_priority.
  unfold reachable. eexists _, _. reflexivity.
Defined.

Lemma throwing_throws q :
  Forall throwing q -> asyncs q = [] /\ length (throws q) = length q.
Proof.
  induction 1 as [|r q Hr Hq [IH1 IH2]]; [now split|].
  unfold throwing in Hr. simpl. destruct (task r); [|contradiction].
  simpl. split; [assumption|now rewrite IH2].
Qed.

Lemma process_rejects_all q : forall s,
  queue s = q -> Forall throwing q -> running s < concurrency s ->
  process s
  = mkState (concurrency s) (running s) [] (awaiting s)
      (settled s ++ throws q) (started s ++ map id q) (next_handle s).
Proof.
  induction q as [|r q IH]; intros s Eq Hq Hr.
  - rewrite process_idle.
    + destruct s; simpl in *. subst. now rewrite !app_nil_r.
    + intros [_ G]. now apply G.
  - inversion Hq as [|? ? Ht Hq']; subst.
    rewrite process_eq. rewrite Eq.
    assert ((running s <? concurrency s)
            && (0 <? Z.of_nat (length (r :: q))) = true) as ->.
    { apply andb_true_iff. split; apply Z.ltb_lt; [assumption|simpl; lia]. }
    cbv zeta. cbn [queue set_running shift]. rewrite Eq.
    unfold throwing in Ht. simpl. destruct (task r) as [e|o]; [|contradiction].
    match goal with |- process (process ?x) = _ =>
      rewrite (IH x); [|reflexivity|assumption|simpl; lia] end.
    simpl. rewrite process_idle.
    + replace (running s + 1 - 1) with (running s) by lia.
      now rewrite <- !app_assoc.
    + intros [_ G]. now apply G.
Qed.

(** X7.  Tasks that throw when they are called take no slot.  When every
    queued task throws and [n] is above the running counter, the one call
    [setLimit(n)] empties the queue: each queued handle is rejected with what
    its task threw, in queue order, and the running counter and the awaited
    tasks are as before. *)
Theorem setLimit_rejects_throwing_queue (s : State) (n : Z) :
  Forall throwing (queue s) -> running s < n ->
  setLimit n s
  = mkState n (running s) [] (awaiting s)
      (settled s ++ throws (queue s)) (started s ++ map id (queue s))
      (next_handle s) /\
  length (throws (queue s)) = length (queue s).
Proof.
  intros Hq Hr. split; [|now apply throwing_throws].
  unfold setLimit. now rewrite (process_rejects_all (queue s)).
Qed.

Lemma setLimit_rejects_throwing_queue_witness :
  let s := run [Add (Throws "a") 0; Add (Throws "b") 2; Add (Throws "c") 1]
             (constructor 0) in
  setLimit 1 s
  = mkState 1 (running s) [] (awaiting s)
      (settled s ++ throws (queue s)) (started s ++ map id (queue s))
      (next_handle s) /\
  length (throws (queue s)) = length (queue s).
Proof.
  apply setLimit_rejects_throwing_queue.
  - vm_compute. repeat constructor.
  - vm_compute. reflexivity.
Defined.

Lemma throws_In h o pre :
  In (h, o) (throws pre) ->
  exists r e, In r pre /\ id r = h /\ task r = Throws e.
Proof.
  induction pre as [|x pre IH]; simpl; [tauto|].
  destruct (task x) as [e|o'] eqn:Et; simpl.
  - intros [[= <- <-]|H].
    + exists x, e. auto.
    + destruct (IH H) as (r & e' & Hr & Hid & Htask). exists r, e'. auto.
  - intros H. destruct (IH H) as (r & e' & Hr & Hid & Htask). exists r, e'. auto.
Qed.

(** X8.  The handle of a task that does not throw when it is called is
    still pending when [add] returns, whether the task was started in the
    call or not: its record is then queued, or its task is awaited. *)
Theorem add_returns_pending_handle (s : State) (o : Outcome) (p : Z) :
  reachable s ->
  settlements (fst (add (Async o) p s)) (snd (add (Async o) p s)) = [] /\
  (In (mkRecord (next_handle s) (Async o) p) (queue (snd (add (Async o) p s)))
   \/ In (mkWorker (next_handle s) o) (awaiting (snd (add (Async o) p s)))).
Proof.
  intros Hs. apply reachable_Inv in Hs as I.
  pose proof (Inv_step (Add (Async o) p) s I) as I'. cbn [step] in I'.
  destruct (add_fate (Async o) p s) as [F|[(o' & [= <-] & F)|F]].
  - split; [|now left]. exact (queued_pending _ _ I' F).
  - split; [|now right]. exact (awaited_pending _ _ I' F).
  - exfalso. cbn [id task result] in F.
    destruct (add_pops (Async o) p s) as [pre P].
    rewrite (pops_settled _ _ _ P) in F. apply in_app_or in F as [F|F].
    + assert (next_handle s < next_handle s)%nat; [|lia].
      apply (inv_handles _ I). unfold handles. apply in_or_app. left.
      change (next_handle s) with (fst (next_handle s, o)). now apply in_map.
    + apply throws_In in F as (r & e & Hr & Hid & Htask).
      assert (In r (queue (enqueue (Async o) p s))) as Hq.
      { rewrite (pops_queue _ _ _ P). apply in_or_app. now left. }
      apply enqueue_In in Hq as [Hq| ->]; [|discriminate].
      assert (id r < next_handle s)%nat; [|lia].
      apply (inv_handles _ I). unfold handles. rewrite !in_app_iff.
      right; right. now apply in_map.
Qed.

Lemma add_returns_pending_handle_witness :
  let s := run [Add (Async (Fulfilled "a")) 0; Add (Throws "b") 3]
             (constructor 2) in
  settlements (fst (add (Async (Rejected "c")) 1 s))
    (snd (add (Async (Rejected "c")) 1 s)) = [] /\
  (In (mkRecord (next_handle s) (Async (Rejected "c")) 1)
      (queue (snd (add (Async (Rejected "c")) 1 s)))
   \/ In (mkWorker (next_handle s) (Rejected "c"))
         (awaiting (snd (add (Async (Rejected "c")) 1 s)))).
Proof.
  apply add_returns_pending_handle.
  unfold reachable. eexists _, _. reflexivity.
Defined.

End QueueBehaviour.

(** * Further behaviour of the fetch wrappers *)

Module FetchBehaviour.
Import FetchWithTimeout.

Lemma manual_cleared evs : forall p,
  fold_left manual_on evs (mkManual (Some p) false) = mkManual (Some p) false.
Proof.
  induction evs as [|ev evs IH]; intros p; [reflexivity|].
  simpl. destruct ev as [[r|e]|]; simpl; apply IH.
Qed.

Lemma raced_timer evs : forall o,
  fold_left raced_on evs (mkRaced (Some timed_out) (Some o))
  = mkRaced (Some timed_out) (Some o).
Proof.
  induction evs as [|ev evs IH]; intros o; [reflexivity|].
  simpl. destruct ev as [o'|]; simpl; apply IH.
Qed.

Lemma raced_timer_pending evs : forall o,
  fold_left raced_on evs (mkRaced None (Some o))
  = mkRaced (if existsb (fun ev => match ev with TimerFires => true
                                               | _ => false end) evs
             then Some timed_out else None) (Some o).
Proof.
  induction evs as [|ev evs IH]; intros o; [reflexivity|].
  simpl. destruct ev as [o'|]; simpl; [apply IH|apply raced_timer].
Qed.

(** X9.  When the fetch settles first, [fetchWithTimeout] has cleared its
    timer: whatever the event loop delivers afterwards changes nothing.
    [fetchWithTimeoutClean] leaves its timer set: the promise it returns
    keeps the outcome of the fetch, but the timer still fires later and
    rejects [timeoutPromise]. *)
Theorem timer_after_fetch_settled (o : Outcome) (rest : list Event) :
  fold_left manual_on (FetchSettles o :: rest) (mkManual None true)
    = mkManual (Some o) false /\
  race (fold_left raced_on (FetchSettles o :: rest) (mkRaced None None))
    = Some o /\
  (In TimerFires rest ->
   timeoutPromise
     (fold_left raced_on (FetchSettles o :: rest) (mkRaced None None))
     = Some timed_out) /\
  (~ In TimerFires rest ->
   timeoutPromise
     (fold_left raced_on (FetchSettles o :: rest) (mkRaced None None))
     = None).
Proof.
  split.
  - destruct o; simpl; apply manual_cleared.
  - cbn [fold_left raced_on]. unfold settle. cbn [race timeoutPromise].
    rewrite raced_timer_pending. cbn [race timeoutPromise].
    split; [reflexivity|].
    destruct (existsb _ rest) eqn:E.
    + split; [reflexivity|]. intros H. exfalso. apply H.
      apply existsb_exists in E as (ev & Hin & Hev).
      destruct ev; [discriminate|assumption].
    + split; [|reflexivity]. intros H. exfalso.
      assert (existsb (fun ev => match ev with TimerFires => true
                                             | _ => false end) rest = true)
        as E'; [|congruence].
      apply existsb_exists. now exists TimerFires.
Qed.

Lemma timer_after_fetch_settled_witness :
  timeoutPromise
    (fold_left raced_on
       (FetchSettles (Fulfilled "ok") :: [TimerFires])
       (mkRaced None None))
    = Some timed_out.
Proof.
  destruct (timer_after_fetch_settled (Fulfilled "ok") [TimerFires])
    as (_ & _ & H & _).
  apply H. now left.
Defined.

End FetchBehaviour.

(** * Behaviour of the wrappers *)

Module WrapperProperties.
Import Wrappers.

Section World.

Context {Env : Type}.
Implicit Types (fn : @Fn Env) (env : Env).

Lemma once_calls_called fn args : forall v env,
  once_calls fn args (mkClosure true v) env
  = (repeat (Return v) (length args), mkClosure true v, env).
Proof.
  induction args as [|a args IH]; intros v env; [reflexivity|].
  simpl. now rewrite IH.
Qed.

(** X10.  However often the function returned by [once(fn)] is called, [fn]
    runs once, with the arguments of the first call: the world is left as
    that one call of [fn] leaves it, the first call ends as [fn] does, and
    all later calls return one and the same value, which is the value [fn]
    returned if it returned. *)
Theorem once_runs_fn_once fn (a : list JsValue) (rest : list (list JsValue)) env :
  exists v,
    once_calls fn (a :: rest) once_closure env
    = (fst (fn a env) :: repeat (Return v) (length rest),
       mkClosure true v, snd (fn a env)) /\
    forall v', fst (fn a env) = Return v' -> v = v'.
Proof.
  cbn [once_calls]. unfold once, once_closure. cbn [called negb result].
  destruct (fn a env) as [[v|e] env1]; cbn [fst snd].
  - exists v. rewrite once_calls_called. split; [reflexivity|congruence].
  - exists Undefined. rewrite once_calls_called. split; [reflexivity|discriminate].
Qed.

(** X11.  When [fn] throws in the first call, the function returned by
    [once(fn)] lets the exception through once; every later call returns
    [undefined] and does not call [fn] again. *)
Theorem once_after_throw fn (a : list JsValue) (rest : list (list JsValue))
    env (e : JsValue) :
  fst (fn a env) = Throw e ->
  once_calls fn (a :: rest) once_closure env
  = (Throw e :: repeat (Return Undefined) (length rest),
     mkClosure true Undefined, snd (fn a env)).
Proof.
  intros H. cbn [once_calls]. unfold once, once_closure.
  cbn [called negb result].
  destruct (fn a env) as [[v|e'] env1]; cbn [fst snd] in *; [discriminate|].
  injection H as ->. now rewrite once_calls_called.
Qed.

Lemma await_call_async_result a : await_call (async_result a) = a.
Proof. now destruct a. Qed.

Lemma observe_retryOnce fn args env :
  observe (retryOnce fn) args env = attempts 1 fn args env.
Proof.
  unfold observe, retryOnce. cbn [attempts]. unfold observe.
  destruct (fn args env) as [c1 env1].
  destruct (await_call c1) as [v|e]; [reflexivity|].
  destruct (fn args env1) as [c2 env2].
  destruct (await_call c2) as [v|e2]; reflexivity.
Qed.

Lemma attempts_ext n fn fn' :
  (forall args env, observe fn args env = observe fn' args env) ->
  forall args env, attempts n fn args env = attempts n fn' args env.
Proof.
  intros H. induction n as [|n IH]; intros args env; simpl; rewrite H;
    [reflexivity|].
  destruct (observe fn' args env) as [[v|e] env1]; [reflexivity|apply IH].
Qed.

Lemma attempts_add n m fn args : forall env,
  attempts (n + S m) fn args env
  = match attempts n fn args env with
    | (Value v, env1) => (Value v, env1)
    | (Error _, env1) => attempts m fn args env1
    end.
Proof.
  induction n as [|n IH]; intros env; simpl; [reflexivity|].
  destruct (observe fn args env) as [[v|e] env1]; [reflexivity|apply IH].
Qed.

Lemma observe_retryOnce_attempts n fn fn' :
  (forall args env, observe fn' args env = attempts n fn args env) ->
  forall args env,
    observe (retryOnce fn') args env = attempts (n + S n) fn args env.
Proof.
  intros H args env. rewrite observe_retryOnce, attempts_add.
  cbn [attempts]. rewrite !H.
  destruct (attempts n fn args env) as [[v|e] env1]; [reflexivity|].
  now rewrite H.
Qed.

(** X12.  Wrapping [k] times in [retryOnce] gives up to [2^k] attempts:
    the caller gets the value of the first attempt that succeeds, and when
    all of them fail, the error of the last one; [fn] is not called again
    after a success. *)
Theorem retryOnce_nested fn (k : nat) (args : list JsValue) env :
  observe (Nat.iter k retryOnce fn) args env
  = attempts (2 ^ k - 1) fn args env.
Proof.
  revert args env. induction k as [|k IH]; intros args env; [reflexivity|].
  change (Nat.iter (S k) retryOnce fn) with (retryOnce (Nat.iter k retryOnce fn)).
  rewrite (observe_retryOnce_attempts (2 ^ k - 1) fn); [|exact IH].
  f_equal. pose proof (Nat.pow_nonzero 2 k ltac:(lia)).
  rewrite Nat.pow_succ_r'. lia.
Qed.

(** X13.  [ensureAsync(fn)] always returns a promise, also when [fn]
    throws or returns a plain value; the promise settles as awaiting the
    call of [fn] would, and the world is left as [fn] leaves it.  On a
    function that already returns promises only, such as one made by
    [retryOnce], it changes nothing. *)
Theorem ensureAsync_transparent fn (args : list JsValue) env :
  (exists ok v, fst (ensureAsync fn args env) = Return (Promise ok v)) /\
  observe (ensureAsync fn) args env = observe fn args env /\
  ensureAsync (retryOnce fn) args env = retryOnce fn args env /\
  ensureAsync (ensureAsync fn) args env = ensureAsync fn args env /\
  observe (retryOnce (ensureAsync fn)) args env
    = observe (retryOnce fn) args env.
Proof.
  assert (forall a e, observe (ensureAsync fn) a e = observe fn a e) as Hobs.
  { intros a e. unfold observe, ensureAsync. destruct (fn a e) as [c env1].
    now rewrite await_call_async_result. }
  split; [|split; [|split; [|split]]].
  - unfold ensureAsync. destruct (fn args env) as [c env1]. cbn [fst].
    destruct (await_call c) as [v|e]; simpl; eauto.
  - apply Hobs.
  - unfold ensureAsync, retryOnce. destruct (fn args env) as [c1 env1].
    destruct (await_call c1) as [v|e]; [reflexivity|].
    destruct (fn args env1) as [c2 env2].
    destruct (await_call c2) as [v|e2]; reflexivity.
  - unfold ensureAsync. destruct (fn args env) as [c env1].
    now rewrite await_call_async_result.
  - rewrite !observe_retryOnce. now apply attempts_ext.
Qed.

End World.

Lemma once_runs_fn_once_witness :
  once_calls (fun _ (n : nat) => (Return (Num (Z.of_nat n)), S n))
    [[Str "x"]; []; [Num 5]] once_closure 0%nat
  = ([Return (Num 0); Return (Num 0); Return (Num 0)],
     mkClosure true (Num 0), 1%nat).
Proof.
  destruct (once_runs_fn_once
              (fun _ (n : nat) => (Return (Num (Z.of_nat n)), S n))
              [Str "x"] [[]; [Num 5]] 0%nat) as (v & E & Hv).
  rewrite E. rewrite (Hv (Num 0) eq_refl). reflexivity.
Defined.

Lemma once_after_throw_witness :
  once_calls (fun _ (n : nat) => (Throw (Str "boom"), S n))
    [[Num 1]; [Num 2]; []] once_closure 0%nat
  = ([Throw (Str "boom"); Return Undefined; Return Undefined],
     mkClosure true Undefined, 1%nat).
Proof.
  exact (once_after_throw (fun _ (n : nat) => (Throw (Str "boom"), S n))
           [Num 1] [[Num 2]; []] 0%nat (Str "boom") eq_refl).
Defined.

Lemma callback_settled calls : forall a,
  fold_left callback calls (Some a) = Some a.
Proof.
  induction calls as [|[error data] calls IH]; intros a; [reflexivity|].
  simpl. destruct (truthy error); apply IH.
Qed.

Lemma callback_first calls :
  fold_left callback calls None
  = match calls with [] => None | call :: _ => Some (asked call) end.
Proof.
  destruct calls as [|[error data] calls]; [reflexivity|].
  simpl. unfold asked. simpl.
  destruct (truthy error); simpl; apply callback_settled.
Qed.

(** X14.  The promise returned by a call of [promisify(fn)] is settled by
    the first thing [fn] does: the first call of the callback it makes
    before returning, else the exception it throws, else the first call of
    the callback it makes later; otherwise the promise stays pending.
    Calls of the callback after the first, and an exception thrown after a
    call of the callback, change nothing. *)
Theorem promisify_first_use_decides
    (fn : list JsValue -> CallbackUse) (args : list JsValue) :
  promisify fn args
  = match during (fn args), thrown (fn args), later (fn args) with
    | call :: _, _, _ => Some (asked call)
    | [], Some e, _ => Some (Error e)
    | [], None, call :: _ => Some (asked call)
    | [], None, [] => None
    end.
Proof.
  unfold promisify. rewrite callback_first.
  destruct (during (fn args)) as [|call calls].
  - destruct (thrown (fn args)) as [e|]; simpl.
    + apply callback_settled.
    + apply callback_first.
  - destruct (thrown (fn args)); simpl; apply callback_settled.
Qed.



End WrapperProperties.
